(** * Cat Chaos: the gesture-detection and sequence-game engine of [code.py]

    A shallow embedding of the CircuitPython program and the properties of
    its quadrature decoder, accelerometer filter, gesture recognizer,
    sequence generator, game loop and high-score table.

    Conventions of the embedding.
    - Python [int] is [Z]; Python [float] is an exact rational [Q], so
      rounding is not part of the model.
    - Python [str] is [string]; the pin levels are [bool].
    - The module-level globals ([encoder_value], [last_state], [fx], [fy],
      [fz]) are the fields of [State], threaded explicitly.
    - The peripherals are polled: each device is a stream of readings
      ([Hardware]) and [State] counts how many readings of each device have
      been consumed so far.  A read never fails.
    - The [while] loop of [detect_action] takes fuel; [None] means that the
      fuel ran out before the loop left.
    - Display, LED and buzzer calls produce no value the engine reads and
      are left out. *)

From Stdlib Require Import ZArith QArith Qabs Qpower Qround.
From Stdlib Require Import List Ascii String Bool Lia Lqa Permutation Sorted.
From Stdlib Require DecimalString.
Import ListNotations.

Local Open Scope Z_scope.

(** ** Peripherals and program state *)

Record Hardware := mkHardware {
  monotonic : nat -> Q;              (* n-th value of time.monotonic() *)
  clk_value : nat -> bool;           (* n-th value of clk.value *)
  dt_value : nat -> bool;            (* n-th value of dt.value *)
  sw_value : nat -> bool;            (* n-th value of sw.value, low = pressed *)
  acceleration : nat -> Q * Q * Q;   (* n-th value of accel.acceleration *)
  randrange : nat -> nat             (* n-th draw of the random source *)
}.

Record State := mkState {
  encoder_value : Z;
  last_state : bool * bool;
  fx : Q;
  fy : Q;
  fz : Q;
  clock_reads : nat;
  clk_reads : nat;
  dt_reads : nat;
  sw_reads : nat;
  accel_reads : nat;
  rand_draws : nat
}.

Definition set_encoder_value (v : Z) (s : State) : State :=
  mkState v (last_state s) (fx s) (fy s) (fz s)
          (clock_reads s) (clk_reads s) (dt_reads s) (sw_reads s)
          (accel_reads s) (rand_draws s).

Definition pair_eqb (p q : bool * bool) : bool :=
  Bool.eqb (fst p) (fst q) && Bool.eqb (snd p) (snd q).

(** ** Quadrature decoder *)

Module Encoder.

(** The two pin reads of [state = (clk.value, dt.value)]. *)
Definition sample (hw : Hardware) (s : State) : bool * bool :=
  (clk_value hw (clk_reads s), dt_value hw (dt_reads s)).

(** [update_encoder()], lines 131-154. *)
Definition update_encoder (hw : Hardware) (s : State) : State :=
  let state := sample hw s in
  let changed := negb (pair_eqb state (last_state s)) in
  let encoder_value' :=
    if changed then
      if negb (fst (last_state s)) && fst state then
        if negb (snd state) then encoder_value s + 1
        else encoder_value s - 1
      else encoder_value s
    else encoder_value s in
  let last_state' := if changed then state else last_state s in
  mkState encoder_value' last_state' (fx s) (fy s) (fz s)
          (clock_reads s) (S (clk_reads s)) (S (dt_reads s)) (sw_reads s)
          (accel_reads s) (rand_draws s).

(** [n] successive calls. *)
Fixpoint update_encoder_n (hw : Hardware) (n : nat) (s : State) : State :=
  match n with
  | O => s
  | S k => update_encoder_n hw k (update_encoder hw s)
  end.

(** The transition table in the specification's words: a transition fires
    only when the pair differs from the previous one and the clock line goes
    low to high; then data low counts +1 and data high counts -1. *)
Definition spec_delta (prev cur : bool * bool) : Z :=
  if negb (pair_eqb cur prev) && (negb (fst prev) && fst cur)
  then (if snd cur then -1 else 1)
  else 0.

Fixpoint spec_total (prev : bool * bool) (pairs : list (bool * bool)) : Z :=
  match pairs with
  | [] => 0
  | p :: rest => spec_delta prev p + spec_total p rest
  end.

(** The pairs the next [n] calls will sample. *)
Definition samples (hw : Hardware) (s : State) (n : nat) : list (bool * bool) :=
  map (fun i => (clk_value hw (clk_reads s + i)%nat,
                 dt_value hw (dt_reads s + i)%nat)) (seq 0 n).

End Encoder.

(** ** Accelerometer filter *)

Module Accel.

Definition alpha : Q := 0.2.

(** [read_accel()], lines 169-190. *)
Definition read_accel (hw : Hardware) (s : State) : (Q * Q * Q) * State :=
  let '(x, y, z) := acceleration hw (accel_reads s) in
  let fx' := (alpha * x + (1 - alpha) * fx s)%Q in
  let fy' := (alpha * y + (1 - alpha) * fy s)%Q in
  let fz' := (alpha * z + (1 - alpha) * fz s)%Q in
  ((fx', fy', fz'),
   mkState (encoder_value s) (last_state s) fx' fy' fz'
           (clock_reads s) (clk_reads s) (dt_reads s) (sw_reads s)
           (S (accel_reads s)) (rand_draws s)).

Fixpoint read_accel_n (hw : Hardware) (n : nat) (s : State) : State :=
  match n with
  | O => s
  | S k => read_accel_n hw k (snd (read_accel hw s))
  end.

Inductive Axis := AxisX | AxisY | AxisZ.

Definition raw (a : Axis) (r : Q * Q * Q) : Q :=
  let '(x, y, z) := r in
  match a with AxisX => x | AxisY => y | AxisZ => z end.

Definition filtered (a : Axis) (s : State) : Q :=
  match a with AxisX => fx s | AxisY => fy s | AxisZ => fz s end.

End Accel.

(** ** Gestures, recognizer and game loop *)

Module Game.
Import Encoder Accel.

Definition ACTIONS : list string :=
  ["PAW"; "TAIL_LEFT"; "TAIL_RIGHT"; "SHAKE"; "FLIP"]%string.

(** [random.choice(seq)]: the element at a drawn index below [len(seq)]. *)
Definition random_choice (hw : Hardware) (items : list string) (s : State)
  : string * State :=
  (nth (randrange hw (rand_draws s) mod List.length items)%nat items EmptyString,
   mkState (encoder_value s) (last_state s) (fx s) (fy s) (fz s)
           (clock_reads s) (clk_reads s) (dt_reads s) (sw_reads s)
           (accel_reads s) (S (rand_draws s))).

(** The comprehension [[random.choice(ACTIONS) for _ in range(n)]]. *)
Fixpoint choices (hw : Hardware) (n : nat) (s : State) : list string * State :=
  match n with
  | O => ([], s)
  | S k =>
      let (a, s1) := random_choice hw ACTIONS s in
      let (rest, s2) := choices hw k s1 in
      (a :: rest, s2)
  end.

(** [generate_sequence(level)], lines 292-304; [range] of a negative
    number is empty. *)
Definition generate_sequence (hw : Hardware) (level : Z) (s : State)
  : list string * State :=
  choices hw (Z.to_nat (level + 1)) s.

Definition Qltb (x y : Q) : bool := negb (Qle_bool y x).

Definition read_monotonic (hw : Hardware) (s : State) : Q * State :=
  (monotonic hw (clock_reads s),
   mkState (encoder_value s) (last_state s) (fx s) (fy s) (fz s)
           (S (clock_reads s)) (clk_reads s) (dt_reads s) (sw_reads s)
           (accel_reads s) (rand_draws s)).

Definition read_sw (hw : Hardware) (s : State) : bool * State :=
  (sw_value hw (sw_reads s),
   mkState (encoder_value s) (last_state s) (fx s) (fy s) (fz s)
           (clock_reads s) (clk_reads s) (dt_reads s) (S (sw_reads s))
           (accel_reads s) (rand_draws s)).

(** One pass through the body of the [while] loop of [detect_action],
    lines 332-359; the flag tells whether the body executed [return True].
    [sw.value] is read only behind [action == "PAW"]. *)
Definition poll (hw : Hardware) (action : string) (s : State) : bool * State :=
  let s1 := update_encoder hw s in
  let '((x, _, z), s2) := read_accel hw s1 in
  let '(paw, s3) :=
    if (action =? "PAW")%string
    then let (v, s') := read_sw hw s2 in (negb v, s')
    else (false, s2) in
  if paw then (true, s3)
  else if (action =? "TAIL_LEFT")%string && (encoder_value s3 <? -2) then (true, s3)
  else if (action =? "TAIL_RIGHT")%string && (encoder_value s3 >? 2) then (true, s3)
  else if (action =? "SHAKE")%string && Qltb 15 (Qabs x) then (true, s3)
  else if (action =? "FLIP")%string && Qltb z (-5) then (true, s3)
  else (false, s3).

(** The [while time.monotonic() - start < time_limit] loop. *)
Fixpoint detect_loop (hw : Hardware) (fuel : nat) (action : string)
    (time_limit start : Q) (s : State) : option (bool * State) :=
  match fuel with
  | O => None
  | S fuel' =>
      let (now, s1) := read_monotonic hw s in
      if Qltb (now - start) time_limit then
        let (hit, s2) := poll hw action s1 in
        if hit then Some (true, s2)
        else detect_loop hw fuel' action time_limit start s2
      else Some (false, s1)
  end.

(** [detect_action(action, time_limit)], lines 307-364. *)
Definition detect_action (hw : Hardware) (fuel : nat) (action : string)
    (time_limit : Q) (s : State) : option (bool * State) :=
  let s0 := set_encoder_value 0 s in
  let (start, s1) := read_monotonic hw s0 in
  detect_loop hw fuel action time_limit start s1.

(** Lines 387-389. *)
Definition base_time (diff : string) : Q :=
  if (diff =? "EASY")%string then 2.0
  else if (diff =? "MEDIUM")%string then 1.5
  else 1.0.

(** Line 410: [base * (0.92 ** level)]. *)
Definition time_limit (base : Q) (level : Z) : Q :=
  (base * 0.92 ^ level)%Q.

(** How a loop body leaves: by [return] or by falling through. *)
Inductive Flow :=
| Returned (score : Z) (won : bool)
| Continues (score : Z).

(** The inner [for i, act in enumerate(seq)] loop, lines 398-416. *)
Fixpoint play_steps (hw : Hardware) (fuel : nat) (base : Q) (level : Z)
    (seq : list string) (score : Z) (s : State) : option (Flow * State) :=
  match seq with
  | [] => Some (Continues score, s)
  | act :: rest =>
      match detect_action hw fuel act (time_limit base level) s with
      | None => None
      | Some (false, s1) => Some (Returned score false, s1)
      | Some (true, s1) => play_steps hw fuel base level rest (score + 1) s1
      end
  end.

(** The outer [for level in ...] loop, lines 394-425. *)
Fixpoint play_levels (hw : Hardware) (fuel : nat) (base : Q)
    (levels : list Z) (score : Z) (s : State) : option ((Z * bool) * State) :=
  match levels with
  | [] => Some ((score, true), s)
  | level :: rest =>
      let (seq, s1) := generate_sequence hw level s in
      match play_steps hw fuel base level seq score s1 with
      | None => None
      | Some (Returned sc won, s2) => Some ((sc, won), s2)
      | Some (Continues sc, s2) => play_levels hw fuel base rest (sc + 5) s2
      end
  end.

(** Python's [range(lo, hi)]. *)
Definition range (lo hi : Z) : list Z :=
  map (fun i => lo + Z.of_nat i) (seq 0 (Z.to_nat (hi - lo))).

(** [play_game(diff)], lines 367-425. *)
Definition play_game (hw : Hardware) (fuel : nat) (diff : string) (s : State)
  : option ((Z * bool) * State) :=
  play_levels hw fuel (base_time diff) (range 1 11) 0 s.

End Game.

(** ** Runs of the recognizer and of the game, described step by step *)

Module GameSpec.
Import Encoder Accel Game.

(** The state in which [detect_action] enters its loop: counter reset to 0,
    start time read. *)
Definition entry (hw : Hardware) (s : State) : State :=
  snd (read_monotonic hw (set_encoder_value 0 s)).

(** One iteration whose loop test passed: the clock read, then the body. *)
Definition iteration (hw : Hardware) (action : string) (s : State)
  : bool * State :=
  poll hw action (snd (read_monotonic hw s)).

(** The state after [k] iterations, none of which returned. *)
Fixpoint after_polls (hw : Hardware) (action : string) (k : nat) (s : State)
  : State :=
  match k with
  | O => s
  | S k' => after_polls hw action k' (snd (iteration hw action s))
  end.

(** Elapsed time seen by the [k]-th loop test of a call entered in [s]. *)
Definition elapsed (hw : Hardware) (s : State) (k : nat) : Q :=
  (monotonic hw (S (clock_reads s) + k) - monotonic hw (clock_reads s))%Q.

(** Whether the body of the [k]-th iteration finds the gesture. *)
Definition hit (hw : Hardware) (action : string) (s : State) (k : nat) : bool :=
  fst (iteration hw action (after_polls hw action k (entry hw s))).

(** The state a pass through the loop body leaves, whatever it decides. *)
Definition polled (hw : Hardware) (action : string) (s : State) : State :=
  let s2 := snd (read_accel hw (update_encoder hw s)) in
  if (action =? "PAW")%string then snd (read_sw hw s2) else s2.

(** The loop test [time.monotonic() - start < time_limit] in state [s]. *)
Definition in_time (hw : Hardware) (limit start : Q) (s : State) : bool :=
  Qltb (monotonic hw (clock_reads s) - start) limit.

(** The gesture predicates in the specification's words, over the button
    level, the decoder counter and the filtered x and z. *)
Definition gesture_predicate (action : string) (button : bool) (counter : Z)
    (x z : Q) : bool :=
  if (action =? "PAW")%string then negb button
  else if (action =? "TAIL_LEFT")%string then counter <? -2
  else if (action =? "TAIL_RIGHT")%string then 2 <? counter
  else if (action =? "SHAKE")%string then Qltb 15 (Qabs x)
  else if (action =? "FLIP")%string then Qltb z (-5)
  else false.

(** Every gesture of [seq] is recognized in turn, taking [s] to [s']. *)
Inductive steps_pass (hw : Hardware) (fuel : nat) (limit : Q)
  : list string -> State -> State -> Prop :=
| steps_pass_nil s : steps_pass hw fuel limit [] s s
| steps_pass_cons act rest s s1 s2 :
    detect_action hw fuel act limit s = Some (true, s1) ->
    steps_pass hw fuel limit rest s1 s2 ->
    steps_pass hw fuel limit (act :: rest) s s2.

(** The recognizer fails for the first time at step [n] (1-based) of [seq]. *)
Inductive step_fails (hw : Hardware) (fuel : nat) (limit : Q)
  : list string -> nat -> State -> State -> Prop :=
| step_fails_here act rest s s1 :
    detect_action hw fuel act limit s = Some (false, s1) ->
    step_fails hw fuel limit (act :: rest) 1 s s1
| step_fails_later act rest n s s1 s2 :
    detect_action hw fuel act limit s = Some (true, s1) ->
    step_fails hw fuel limit rest n s1 s2 ->
    step_fails hw fuel limit (act :: rest) (S n) s s2.

(** Each level of [levels] is generated and completed in turn. *)
Inductive levels_pass (hw : Hardware) (fuel : nat) (base : Q)
  : list Z -> State -> State -> Prop :=
| levels_pass_nil s : levels_pass hw fuel base [] s s
| levels_pass_cons level rest s s1 s2 :
    steps_pass hw fuel (time_limit base level)
               (fst (generate_sequence hw level s))
               (snd (generate_sequence hw level s)) s1 ->
    levels_pass hw fuel base rest s1 s2 ->
    levels_pass hw fuel base (level :: rest) s s2.

(** Levels 1 .. L-1 are completed and the recognizer first fails at level
    [L], step [step] (1-based). *)
Definition first_failure (hw : Hardware) (fuel : nat) (diff : string)
    (L : Z) (step : nat) (s s' : State) : Prop :=
  exists s1,
    levels_pass hw fuel (base_time diff) (range 1 L) s s1 /\
    step_fails hw fuel (time_limit (base_time diff) L)
               (fst (generate_sequence hw L s1)) step
               (snd (generate_sequence hw L s1)) s'.

(** Points of a completed level: one per step, [level + 1] steps, plus 5. *)
Definition level_points (level : Z) : Z := (level + 1) + 5.

(** Points of the completed levels [1 .. L-1]. *)
Definition prior_levels_score (L : Z) : Z :=
  fold_right Z.add 0 (map level_points (range 1 L)).

End GameSpec.

(** ** High-score table *)

Module Highscores.

Record Entry := mkEntry { entry_name : string; entry_score : Z }.

(** Lines 434-438. *)
Definition DEFAULT_SCORES : list Entry :=
  [ mkEntry "AAA" 0; mkEntry "BBB" 0; mkEntry "CCC" 0 ].

Inductive exn :=
| OSError | ValueError | UnicodeError | IndexError | KeyError | TypeError.

Inductive result (A : Type) :=
| Ok (a : A)
| Raise (e : exn).
Arguments Ok {A} a.
Arguments Raise {A} e.

(** [try: body except: handler], the bare [except] catching everything. *)
Definition try_except {A : Type} (body : result A) (handler : result A)
  : result A :=
  match body with
  | Ok a => Ok a
  | Raise _ => handler
  end.

(** [open(HIGHSCORE_FILE, "r")] on a store that holds the file's text or
    nothing. *)
Definition open_read (store : option string) : result string :=
  match store with
  | Some text => Ok text
  | None => Raise OSError
  end.

(** [scores[-1]]. *)
Definition last_item (scores : list Entry) : result Entry :=
  match rev scores with
  | [] => Raise IndexError
  | e :: _ => Ok e
  end.

(** The built-in [sorted(scores, key=lambda x: x["score"], reverse=True)]:
    a stable sort, here by insertion from the right. *)
Fixpoint insert_by_score (e : Entry) (l : list Entry) : list Entry :=
  match l with
  | [] => [e]
  | h :: t =>
      if entry_score e <? entry_score h then h :: insert_by_score e t
      else e :: h :: t
  end.

Definition sorted_by_score (l : list Entry) : list Entry :=
  fold_right insert_by_score [] l.

(** Lines 580-589 of [end_screen] on the loaded list: whether name entry is
    triggered, and the list shown afterwards.  [initials] is what
    [enter_initials()] returns when it is called. *)
Definition update_scores (score : Z) (initials : string) (scores : list Entry)
  : result (bool * list Entry) :=
  match last_item scores with
  | Raise e => Raise e
  | Ok third =>
      if score >? entry_score third then
        let scores1 := scores ++ [mkEntry initials score] in
        let scores2 := firstn 3 (sorted_by_score scores1) in
        Ok (true, scores2)
      else Ok (false, scores)
  end.

Section Persistence.

(** The JSON codec is a library: [json.load] yields the decoded list or
    raises, [json.dump] yields the text written. *)
Variable json_load : string -> result (list Entry).
Variable json_dump : list Entry -> string.

(** The body of the [try]: [with open(...) as f: return json.load(f)]. *)
Definition read_store (store : option string) : result (list Entry) :=
  match open_read store with
  | Ok f => json_load f
  | Raise e => Raise e
  end.

(** [load_highscores()], lines 441-455. *)
Definition load_highscores (store : option string) : result (list Entry) :=
  try_except (read_store store) (Ok DEFAULT_SCORES).

(** [save_highscores(scores)], lines 458-466. *)
Definition save_highscores (scores : list Entry) : option string :=
  Some (json_dump scores).

(** The high-score part of [end_screen], lines 577-591: the table shown and
    the store afterwards. *)
Definition end_screen (score : Z) (initials : string) (store : option string)
  : result (list Entry * option string) :=
  match load_highscores store with
  | Raise e => Raise e
  | Ok scores =>
      match update_scores score initials scores with
      | Raise e => Raise e
      | Ok (true, scores') => Ok (scores', save_highscores scores')
      | Ok (false, scores') => Ok (scores', store)
      end
  end.

End Persistence.

(** The qualification rule in the specification's words: the score must
    exceed the lowest score held, a missing slot among the 3 counting as 0. *)
Definition padded_scores (scores : list Entry) : list Z :=
  map entry_score scores ++ repeat 0 (3 - List.length scores).

Definition lowest (l : list Z) : Z :=
  match l with
  | [] => 0
  | x :: rest => fold_right Z.min x rest
  end.

Definition spec_qualifies (score : Z) (scores : list Entry) : bool :=
  score >? lowest (padded_scores scores).

(** Descending by score. *)
Definition score_ge (a b : Entry) : Prop := entry_score b <= entry_score a.

Definition has_score (k : Z) (e : Entry) : bool := entry_score e =? k.

End Highscores.

(** ** Concrete boards used to exercise the definitions *)

Module Boards.
Import Encoder Accel Game.

(** What the module-level initialisation leaves: [last_clk] and
    [last_state] read the pins, counter and filter start at 0. *)
Definition initial_state (hw : Hardware) : State :=
  mkState 0 (clk_value hw 1%nat, dt_value hw 0%nat) 0 0 0 0 2 1 0 0 0.

(** The button is held down; every draw picks PAW. *)
Definition held_button : Hardware :=
  mkHardware (fun _ => 0%Q) (fun _ => true) (fun _ => true)
             (fun _ => false) (fun _ => (0%Q, 0%Q, 0%Q)) (fun _ => 0%nat).

(** The clock advances one second per reading; the button is down for its
    first three readings and up afterwards; every draw picks PAW. *)
Definition released_button : Hardware :=
  mkHardware (fun n => inject_Z (Z.of_nat n)) (fun _ => true) (fun _ => true)
             (fun n => Nat.leb 3 n) (fun _ => (0%Q, 0%Q, 0%Q))
             (fun _ => 0%nat).

(** The state in which a full game on [held_button] ends. *)
Definition held_button_final : State :=
  match play_game held_button 1 "EASY" (initial_state held_button) with
  | Some (_, s') => s'
  | None => initial_state held_button
  end.

(** The board lies still under a steady raw acceleration. *)
Definition steady : Hardware :=
  mkHardware (fun n => inject_Z (Z.of_nat n)) (fun _ => true) (fun _ => true)
             (fun _ => true) (fun _ => (20%Q, 0%Q, (-9.8)%Q)) (fun _ => 3%nat).

End Boards.

(** ** More boards *)

Module MoreBoards.
Import Encoder Accel Game Boards.

(** The knob turns counter-clockwise: the clock line toggles at every
    reading while the data line stays high; the button is up. *)
Definition turning_left : Hardware :=
  mkHardware (fun _ => 0%Q) (fun n => Nat.odd n) (fun _ => true)
             (fun _ => true) (fun _ => (0%Q, 0%Q, 0%Q)) (fun _ => 1%nat).

(** The state in which the game lost on [released_button] ends. *)
Definition released_button_final : State :=
  match play_game released_button 3 "EASY" (initial_state released_button) with
  | Some (_, s') => s'
  | None => initial_state released_button
  end.

End MoreBoards.

(** ** Menus: difficulty selection and initials entry *)

Module Menu.
Import Encoder Game Highscores.

(** Line 249. *)
Definition difficulties : list string := ["EASY"; "MEDIUM"; "HARD"]%string.

(** Line 469. *)
Definition LETTERS : string := "ABCDEFGHIJKLMNOPQRSTUVWXYZ".

(** The position a Python subscript [i] denotes in a sequence of length
    [len]: negative subscripts count from the end, anything outside raises
    IndexError. *)
Definition index (len i : Z) : result nat :=
  let j := if i <? 0 then i + len else i in
  if (0 <=? j) && (j <? len) then Ok (Z.to_nat j) else Raise IndexError.

(** [l[i]] on a list. *)
Definition list_item {A : Type} (l : list A) (i : Z) : result A :=
  match index (Z.of_nat (List.length l)) i with
  | Raise e => Raise e
  | Ok n =>
      match nth_error l n with
      | Some a => Ok a
      | None => Raise IndexError
      end
  end.

(** [s[i]] on a string: the one-character string at that position. *)
Definition str_item (s : string) (i : Z) : result string :=
  match index (Z.of_nat (String.length s)) i with
  | Raise e => Raise e
  | Ok n =>
      match String.get n s with
      | Some c => Ok (String c EmptyString)
      | None => Raise IndexError
      end
  end.

Fixpoint replace_nth {A : Type} (l : list A) (n : nat) (a : A) : list A :=
  match l, n with
  | [], _ => []
  | _ :: t, O => a :: t
  | h :: t, S k => h :: replace_nth t k a
  end.

(** [l[i] = a] on a list. *)
Definition list_set {A : Type} (l : list A) (i : Z) (a : A)
  : result (list A) :=
  match index (Z.of_nat (List.length l)) i with
  | Raise e => Raise e
  | Ok n => Ok (replace_nth l n a)
  end.

(** The [while True] loop of [choose_difficulty], lines 265-283.  The
    screen text evaluates [difficulties[idx]] on every pass. *)
Fixpoint choose_loop (hw : Hardware) (fuel : nat) (s : State)
  : option (result string * State) :=
  match fuel with
  | O => None
  | S fuel' =>
      let s1 := update_encoder hw s in
      let idx := Z.abs (encoder_value s1) mod 3 in
      match list_item difficulties idx with
      | Raise e => Some (Raise e, s1)
      | Ok _ =>
          let (v, s2) := read_sw hw s1 in
          if negb v then Some (list_item difficulties idx, s2)
          else choose_loop hw fuel' s2
      end
  end.

(** [choose_difficulty()], lines 251-283. *)
Definition choose_difficulty (hw : Hardware) (fuel : nat) (s : State)
  : option (result string * State) :=
  choose_loop hw fuel (set_encoder_value 0 s).

(** The [while True] loop of [enter_initials], lines 488-512. *)
Fixpoint initials_loop (hw : Hardware) (fuel : nat) (name : list string)
    (pos : Z) (s : State) : option (result string * State) :=
  match fuel with
  | O => None
  | S fuel' =>
      let s1 := update_encoder hw s in
      let idx := Z.abs (encoder_value s1) mod Z.of_nat (String.length LETTERS) in
      match str_item LETTERS idx with
      | Raise e => Some (Raise e, s1)
      | Ok letter =>
          match list_set name pos letter with
          | Raise e => Some (Raise e, s1)
          | Ok name1 =>
              let (v, s2) := read_sw hw s1 in
              if negb v then
                let pos1 := pos + 1 in
                let s3 := set_encoder_value 0 s2 in
                if pos1 >=? 3 then Some (Ok (String.concat "" name1), s3)
                else initials_loop hw fuel' name1 pos1 s3
              else initials_loop hw fuel' name1 pos s2
          end
      end
  end.

(** [enter_initials()], lines 471-512. *)
Definition enter_initials (hw : Hardware) (fuel : nat) (s : State)
  : option (result string * State) :=
  initials_loop hw fuel ["A"; "A"; "A"]%string 0 (set_encoder_value 0 s).

(** The loops [while True: if not sw.value: ...] that wait for the button,
    lines 535-538 and 570-572. *)
Fixpoint wait_press (hw : Hardware) (fuel : nat) (s : State) : option State :=
  match fuel with
  | O => None
  | S fuel' =>
      let (v, s1) := read_sw hw s in
      if negb v then Some s1 else wait_press hw fuel' s1
  end.

(** A pass of a menu loop that finds the button up: the pins are sampled,
    the button is read. *)
Definition menu_pass (hw : Hardware) (s : State) : State :=
  snd (read_sw hw (update_encoder hw s)).

Fixpoint menu_passes (hw : Hardware) (k : nat) (s : State) : State :=
  match k with
  | O => s
  | S k' => menu_passes hw k' (menu_pass hw s)
  end.

(** How many of the next [k] readings of the button, from reading [from]
    on, are low. *)
Fixpoint presses (hw : Hardware) (from k : nat) : nat :=
  match k with
  | O => 0
  | S k' =>
      (if sw_value hw from then 0 else 1) + presses hw (S from) k'
  end.

Definition is_letter (c : Ascii.ascii) : Prop :=
  In c (list_ascii_of_string LETTERS).

(** The list [name] of [enter_initials] holds three one-letter strings. *)
Definition three_letters (name : list string) : Prop :=
  exists a b c,
    name = [String a EmptyString; String b EmptyString; String c EmptyString]
    /\ is_letter a /\ is_letter b /\ is_letter c.

(** The knob is turned one notch clockwise, then the button is pressed. *)
Definition one_notch : Hardware :=
  mkHardware (fun _ => 0%Q)
             (fun n => Nat.eqb n 3) (fun _ => false)
             (fun n => negb (Nat.eqb n 3))
             (fun _ => (0%Q, 0%Q, 0%Q)) (fun _ => 0%nat).

End Menu.

(** ** The end screen with its waits, and one round of the main loop *)

Module Round.
Import Encoder Game Highscores Menu.

Section Codec.
Variable json_load : string -> result (list Entry).
Variable json_dump : list Entry -> string.

(** [end_screen(score, win)], lines 544-591, with the waits for the button
    and the entry of the initials; [win] only selects what is displayed. *)
Definition end_screen_io (hw : Hardware) (fuel : nat) (score : Z) (win : bool)
    (store : option string) (s : State)
  : option (result (list Entry * option string) * State) :=
  match wait_press hw fuel s with
  | None => None
  | Some s1 =>
      match load_highscores json_load store with
      | Raise e => Some (Raise e, s1)
      | Ok scores =>
          match last_item scores with
          | Raise e => Some (Raise e, s1)
          | Ok third =>
              if score >? entry_score third then
                match enter_initials hw fuel s1 with
                | None => None
                | Some (Raise e, s2) => Some (Raise e, s2)
                | Some (Ok name, s2) =>
                    let scores1 := scores ++ [mkEntry name score] in
                    let scores2 := firstn 3 (sorted_by_score scores1) in
                    let store2 := save_highscores json_dump scores2 in
                    match wait_press hw fuel s2 with
                    | None => None
                    | Some s3 => Some (Ok (scores2, store2), s3)
                    end
                end
              else
                match wait_press hw fuel s1 with
                | None => None
                | Some s3 => Some (Ok (scores, store), s3)
                end
          end
      end
  end.


End Codec.


End Round.

(** ** Display *)

Module Display.
Import Highscores Game Menu.

(** A text label of the display group. *)
Record Label := mkLabel {
  label_text : string;
  label_scale : Z;
  label_color : Z;
  label_x : Z;
  label_y : Z
}.

(** The [for txt in lines] loop of [show_text], lines 62-66, from the row
    [y] on. *)
Fixpoint show_text_from (y : Z) (lines : list string) : list Label :=
  match lines with
  | [] => []
  | txt :: rest => mkLabel txt 1 0xFFFFFF 5 y :: show_text_from (y + 10) rest
  end.

(** [show_text(lines)], lines 45-68: the group that becomes the display's
    root group. *)
Definition show_text (lines : list string) : list Label :=
  show_text_from 5 lines.

(** Python's [str] of an integer. *)
Definition str (z : Z) : string :=
  DecimalString.NilZero.string_of_int (Z.to_int z).

(** The [for i, s in enumerate(scores)] loop of [show_highscores], lines
    527-528, from the index [i] on. *)
Fixpoint score_lines (i : Z) (scores : list Entry) : list string :=
  match scores with
  | [] => []
  | s :: rest =>
      (str (i + 1) ++ ". " ++ entry_name s ++ "  " ++ str (entry_score s))%string
      :: score_lines (i + 1) rest
  end.

(** The lines [show_highscores] passes to [show_text], lines 524-532. *)
Definition highscore_lines (scores : list Entry) : list string :=
  ("HIGH SCORES:" :: score_lines 0 scores ++ [""; "Press to continue"])%string.

(** [show_highscores(scores)], lines 515-538: the group displayed, then the
    wait for the button. *)
Definition show_highscores (hw : Hardware) (fuel : nat) (scores : list Entry)
    (s : State) : option (list Label * State) :=
  let group := show_text (highscore_lines scores) in
  match wait_press hw fuel s with
  | None => None
  | Some s' => Some (group, s')
  end.

(** Height of the display in pixels, line 42. *)
Definition display_height : Z := 64.

End Display.

(** * Properties *)

Import Encoder Accel Game GameSpec Highscores Boards.

(** ** Quadrature decoder *)

Lemma pair_eqb_spec (p q : bool * bool) : pair_eqb p q = true <-> p = q.
Proof.
  destruct p as [a b], q as [c d]; unfold pair_eqb; simpl.
  rewrite andb_true_iff, !eqb_true_iff.
  split; [intros [-> ->]; reflexivity | intros H; inversion H; auto].
Qed.

Section EncoderFacts.
Variable hw : Hardware.

Lemma update_encoder_delta (s : State) :
  encoder_value (update_encoder hw s)
  = encoder_value s + spec_delta (last_state s) (sample hw s).
Proof.
  unfold update_encoder, spec_delta; simpl.
  destruct (pair_eqb _ _); simpl; [lia|].
  destruct (last_state s) as [c d]; simpl.
  destruct c, (clk_value hw (clk_reads s)), (dt_value hw (dt_reads s));
    simpl; lia.
Qed.

Lemma update_encoder_last (s : State) :
  last_state (update_encoder hw s) = sample hw s.
Proof.
  unfold update_encoder; simpl.
  destruct (pair_eqb _ _) eqn:E; simpl; [|reflexivity].
  symmetry; now apply pair_eqb_spec.
Qed.

Lemma samples_step (s : State) (n : nat) :
  samples hw s (S n) = sample hw s :: samples hw (update_encoder hw s) n.
Proof.
  unfold samples, sample; simpl.
  rewrite !Nat.add_0_r; f_equal.
  rewrite <- seq_shift, map_map.
  apply map_ext; intros i.
  now rewrite !Nat.add_succ_r.
Qed.

Lemma update_encoder_n_total (n : nat) : forall s,
  encoder_value (update_encoder_n hw n s)
  = encoder_value s + spec_total (last_state s) (samples hw s n).
Proof.
  induction n as [|n IH]; intros s.
  - simpl; lia.
  - rewrite samples_step; simpl.
    rewrite IH, update_encoder_delta, update_encoder_last; lia.
Qed.

End EncoderFacts.

(** C3. Every call of [update_encoder] adds to the counter exactly the
    transition value of the pair it samples against the stored pair, and
    stores that pair; so over any sequence of sampled pairs the counter moves
    by the sum of the transition values.  That value is +1 on a clock
    low-to-high transition with data low, -1 with data high, and 0 for a
    repeated pair, for a clock high-to-low transition and whenever the clock
    level is unchanged (data-only changes). *)
Theorem update_encoder_quadrature :
  (forall hw s,
      encoder_value (update_encoder hw s)
      = encoder_value s + spec_delta (last_state s) (sample hw s)
      /\ last_state (update_encoder hw s) = sample hw s)
  /\ (forall hw n s,
      encoder_value (update_encoder_n hw n s)
      = encoder_value s + spec_total (last_state s) (samples hw s n))
  /\ (forall d d', spec_delta (false, d) (true, d') = if d' then -1 else 1)
  /\ (forall p, spec_delta p p = 0)
  /\ (forall d d', spec_delta (true, d) (false, d') = 0)
  /\ (forall c d d', spec_delta (c, d) (c, d') = 0).
Proof.
  split; [intros hw s; split|split; [|repeat apply conj]].
  - apply update_encoder_delta.
  - apply update_encoder_last.
  - apply update_encoder_n_total.
  - intros d d'; destruct d, d'; reflexivity.
  - intros [c d]; destruct c, d; reflexivity.
  - intros d d'; destruct d, d'; reflexivity.
  - intros c d d'; destruct c, d, d'; reflexivity.
Qed.

(** ** Accelerometer filter *)


Section AccelFacts.
Variable hw : Hardware.

Lemma read_accel_axis (a : Axis) (s : State) :
  (filtered a (snd (read_accel hw s))
   == 0.2 * raw a (acceleration hw (accel_reads s)) + 0.8 * filtered a s)%Q.
Proof.
  unfold read_accel, raw.
  destruct (acceleration hw (accel_reads s)) as [[x y] z].
  destruct a; simpl; unfold alpha; ring.
Qed.

Lemma read_accel_returns_state (s : State) :
  fst (read_accel hw s)
  = (fx (snd (read_accel hw s)), fy (snd (read_accel hw s)),
     fz (snd (read_accel hw s))).
Proof.
  unfold read_accel.
  now destruct (acceleration hw (accel_reads s)) as [[x y] z].
Qed.

Lemma read_accel_reads (s : State) :
  accel_reads (snd (read_accel hw s)) = S (accel_reads s).
Proof.
  unfold read_accel.
  now destruct (acceleration hw (accel_reads s)) as [[x y] z].
Qed.

Lemma read_accel_n_reads (n : nat) : forall s,
  accel_reads (read_accel_n hw n s) = (accel_reads s + n)%nat.
Proof.
  induction n as [|n IH]; intros s; simpl.
  - lia.
  - rewrite IH, read_accel_reads; lia.
Qed.

Lemma read_accel_n_succ (n : nat) : forall s,
  read_accel_n hw (S n) s = snd (read_accel hw (read_accel_n hw n s)).
Proof.
  induction n as [|n IH]; intros s; [reflexivity|].
  change (read_accel_n hw (S (S n)) s)
    with (read_accel_n hw (S n) (snd (read_accel hw s))).
  now rewrite IH.
Qed.

Section ConstantInput.
Variables (a : Axis) (s : State) (v : Q).
Hypothesis constant :
  forall i, (raw a (acceleration hw (accel_reads s + i)%nat) == v)%Q.






End ConstantInput.
End AccelFacts.



(** ** Sequence generator *)

Section GeneratorFacts.
Variable hw : Hardware.

Lemma random_choice_member (s : State) :
  In (fst (random_choice hw ACTIONS s)) ACTIONS.
Proof.
  unfold random_choice; cbn [fst].
  apply nth_In.
  apply Nat.mod_upper_bound; discriminate.
Qed.

Lemma choices_length (n : nat) : forall s,
  List.length (fst (choices hw n s)) = n.
Proof.
  induction n as [|n IH]; intros s; [reflexivity|].
  cbn [choices].
  destruct (random_choice hw ACTIONS s) as [a s1].
  specialize (IH s1).
  destruct (choices hw n s1) as [rest s2]; cbn [fst] in *.
  simpl; now rewrite IH.
Qed.

Lemma choices_members (n : nat) : forall s,
  Forall (fun a => In a ACTIONS) (fst (choices hw n s)).
Proof.
  induction n as [|n IH]; intros s; [constructor|].
  cbn [choices].
  pose proof (random_choice_member s) as M.
  destruct (random_choice hw ACTIONS s) as [a s1].
  specialize (IH s1).
  destruct (choices hw n s1) as [rest s2]; cbn [fst] in *.
  now constructor.
Qed.

Lemma generate_sequence_length (level : Z) (s : State) :
  -1 <= level ->
  Z.of_nat (List.length (fst (generate_sequence hw level s))) = level + 1.
Proof.
  intros H; unfold generate_sequence; rewrite choices_length; lia.
Qed.

End GeneratorFacts.

(** C8. For every level from -1 up (the game uses 1 to 10),
    [generate_sequence(level)] returns exactly [level + 1] gestures, and
    whatever the random source draws each one belongs to [ACTIONS], which
    holds the five gestures. *)
Theorem generate_sequence_shape (hw : Hardware) (level : Z) (s : State) :
  -1 <= level ->
  Z.of_nat (List.length (fst (generate_sequence hw level s))) = level + 1
  /\ Forall (fun a => In a ACTIONS) (fst (generate_sequence hw level s))
  /\ ACTIONS = ["PAW"; "TAIL_LEFT"; "TAIL_RIGHT"; "SHAKE"; "FLIP"]%string.
Proof.
  intros H; repeat apply conj.
  - now apply generate_sequence_length.
  - apply choices_members.
  - reflexivity.
Qed.

Lemma generate_sequence_shape_witness :
  -1 <= 3
  /\ Z.of_nat (List.length
                 (fst (generate_sequence steady 3 (initial_state steady))))
     = 3 + 1.
Proof.
  split; [lia|].
  exact (proj1 (generate_sequence_shape steady 3 (initial_state steady)
                  ltac:(lia))).
Defined.

(** ** Time limit *)





(** ** Gesture recognizer *)

Lemma Qltb_lt (x y : Q) : Qltb x y = true <-> (x < y)%Q.
Proof.
  unfold Qltb; rewrite negb_true_iff, <- not_true_iff_false, Qle_bool_iff.
  split; [apply Qnot_le_lt | apply Qlt_not_le].
Qed.

Lemma Qltb_ge (x y : Q) : Qltb x y = false <-> (y <= x)%Q.
Proof.
  unfold Qltb; rewrite negb_false_iff; apply Qle_bool_iff.
Qed.

Section RecognizerFacts.
Variable hw : Hardware.

Lemma poll_state (action : string) (s : State) :
  snd (poll hw action s) = polled hw action s.
Proof.
  unfold poll, polled.
  destruct (read_accel hw (update_encoder hw s)) as [[[x y] z] s2]; cbn [snd].
  destruct (action =? "PAW")%string.
  - cbn [read_sw]; destruct (negb _); [reflexivity|].
    repeat match goal with
           | |- context [if ?c then _ else _] => destruct c
           end; reflexivity.
  - cbn iota.
    repeat match goal with
           | |- context [if ?c then _ else _] => destruct c
           end; reflexivity.
Qed.

Lemma poll_predicate (action : string) (s : State) :
  fst (poll hw action s)
  = gesture_predicate action (sw_value hw (sw_reads s))
      (encoder_value (snd (poll hw action s)))
      (fx (snd (poll hw action s))) (fz (snd (poll hw action s))).
Proof.
  rewrite poll_state; unfold poll, polled, gesture_predicate.
  pose proof (read_accel_returns_state hw (update_encoder hw s)) as R.
  destruct (read_accel hw (update_encoder hw s)) as [[[x y] z] s2] eqn:E.
  cbn [fst snd] in *; injection R as -> _ ->.
  assert (SW : sw_reads s2 = sw_reads s).
  { replace s2 with (snd (read_accel hw (update_encoder hw s)))
      by now rewrite E.
    unfold read_accel.
    now destruct (acceleration hw _) as [[? ?] ?]. }
  destruct (action =? "PAW")%string eqn:P.
  - apply String.eqb_eq in P; subst action.
    cbn [read_sw fst snd]; rewrite SW.
    destruct (sw_value hw (sw_reads s)); reflexivity.
  - cbn iota.
    destruct (action =? "TAIL_LEFT")%string eqn:L; cbn [andb].
    { destruct (encoder_value s2 <? -2); [reflexivity|].
      apply String.eqb_eq in L; subst action; reflexivity. }
    destruct (action =? "TAIL_RIGHT")%string eqn:R; cbn [andb].
    { rewrite Z.gtb_ltb.
      destruct (2 <? encoder_value s2); [reflexivity|].
      apply String.eqb_eq in R; subst action; reflexivity. }
    destruct (action =? "SHAKE")%string eqn:K; cbn [andb].
    { destruct (Qltb 15 (Qabs (fx s2))); [reflexivity|].
      apply String.eqb_eq in K; subst action; reflexivity. }
    destruct (action =? "FLIP")%string eqn:F; cbn [andb]; [|reflexivity].
    destruct (Qltb (fz s2) (-5)); reflexivity.
Qed.

Lemma polled_clock (action : string) (s : State) :
  clock_reads (polled hw action s) = clock_reads s.
Proof.
  unfold polled, read_accel.
  destruct (acceleration hw _) as [[x y] z].
  destruct (action =? "PAW")%string; reflexivity.
Qed.

Lemma iteration_clock (action : string) (s : State) :
  clock_reads (snd (iteration hw action s)) = S (clock_reads s).
Proof.
  unfold iteration; rewrite poll_state, polled_clock; reflexivity.
Qed.

Lemma after_polls_clock (action : string) (k : nat) : forall s,
  clock_reads (after_polls hw action k s) = (clock_reads s + k)%nat.
Proof.
  induction k as [|k IH]; intros s; cbn [after_polls].
  - lia.
  - rewrite IH, iteration_clock; lia.
Qed.

Lemma after_polls_succ (action : string) (k : nat) : forall s,
  after_polls hw action (S k) s
  = snd (iteration hw action (after_polls hw action k s)).
Proof.
  induction k as [|k IH]; intros s; [reflexivity|].
  change (after_polls hw action (S (S k)) s)
    with (after_polls hw action (S k) (snd (iteration hw action s))).
  now rewrite IH.
Qed.

Section Loop.
Variables (action : string) (limit start : Q).

Lemma detect_loop_skip (n : nat) : forall fuel s,
  (forall k, (k < n)%nat ->
     in_time hw limit start (after_polls hw action k s) = true
     /\ fst (iteration hw action (after_polls hw action k s)) = false) ->
  detect_loop hw (n + fuel) action limit start s
  = detect_loop hw fuel action limit start (after_polls hw action n s).
Proof.
  induction n as [|n IH]; intros fuel s H; [reflexivity|].
  destruct (H 0%nat ltac:(lia)) as [T M]; cbn [after_polls] in T, M.
  cbn [Nat.add detect_loop read_monotonic].
  unfold in_time in T; rewrite T.
  unfold iteration in M; cbn [read_monotonic snd] in M.
  destruct (poll hw action _) as [h s2] eqn:E; cbn [fst] in M; subst h.
  assert (Es : snd (iteration hw action s) = s2).
  { unfold iteration; cbn [read_monotonic snd]; now rewrite E. }
  cbn [after_polls]; rewrite Es.
  apply IH; intros k Hk.
  specialize (H (S k) ltac:(lia)); cbn [after_polls] in H.
  now rewrite Es in H.
Qed.

Lemma detect_loop_timeout (fuel : nat) (s : State) :
  in_time hw limit start s = false ->
  detect_loop hw (S fuel) action limit start s
  = Some (false, snd (read_monotonic hw s)).
Proof.
  intros T; cbn [detect_loop read_monotonic].
  unfold in_time in T; now rewrite T.
Qed.

Lemma detect_loop_hit (fuel : nat) (s : State) :
  in_time hw limit start s = true -> fst (iteration hw action s) = true ->
  detect_loop hw (S fuel) action limit start s
  = Some (true, snd (iteration hw action s)).
Proof.
  intros T M; cbn [detect_loop read_monotonic].
  unfold in_time in T; rewrite T.
  unfold iteration in *; cbn [read_monotonic snd] in *.
  destruct (poll hw action _) as [h s2]; cbn [fst snd] in *; now subst h.
Qed.

End Loop.
End RecognizerFacts.

Lemma least_index (P : nat -> bool) (m : nat) :
  (forall k, (k < m)%nat -> P k = false)
  \/ exists n, (n < m)%nat /\ P n = true
               /\ forall k, (k < n)%nat -> P k = false.
Proof.
  induction m as [|m [IH | (n & Hn & Pn & Hfirst)]].
  - left; intros k Hk; lia.
  - destruct (P m) eqn:Pm.
    + right; exists m; repeat split; [lia | assumption | assumption].
    + left; intros k Hk.
      destruct (Nat.eq_dec k m) as [-> | Hne]; [assumption | apply IH; lia].
  - right; exists n; repeat split; [lia | assumption | assumption].
Qed.

Section RecognizerRuns.
Variables (hw : Hardware) (action : string) (limit : Q) (s : State).

Lemma detect_action_loop (fuel : nat) :
  detect_action hw fuel action limit s
  = detect_loop hw fuel action limit (monotonic hw (clock_reads s))
                (entry hw s).
Proof. reflexivity. Qed.

Lemma in_time_elapsed (k : nat) :
  in_time hw limit (monotonic hw (clock_reads s))
          (after_polls hw action k (entry hw s))
  = Qltb (elapsed hw s k) limit.
Proof.
  unfold in_time, elapsed; now rewrite after_polls_clock.
Qed.

Lemma first_deadline :
  (exists m, (limit <= elapsed hw s m)%Q) ->
  exists n, (limit <= elapsed hw s n)%Q
            /\ forall k, (k < n)%nat -> (elapsed hw s k < limit)%Q.
Proof.
  intros [m Hm].
  destruct (least_index (fun k => negb (Qltb (elapsed hw s k) limit)) (S m))
    as [H | (n & _ & Hn & Hfirst)].
  - specialize (H m ltac:(lia)); apply negb_false_iff, Qltb_lt in H.
    exfalso; exact (Qlt_not_le _ _ H Hm).
  - exists n; split.
    + now apply Qltb_ge, negb_true_iff.
    + intros k Hk; now apply Qltb_lt, negb_false_iff, Hfirst.
Qed.

Lemma detect_action_misses (n fuel : nat) :
  (forall k, (k < n)%nat -> (elapsed hw s k < limit)%Q) ->
  (forall k, (k < n)%nat -> hit hw action s k = false) ->
  detect_action hw (n + fuel) action limit s
  = detect_loop hw fuel action limit (monotonic hw (clock_reads s))
                (after_polls hw action n (entry hw s)).
Proof.
  intros T M; rewrite detect_action_loop.
  apply detect_loop_skip; intros k Hk; split.
  - rewrite in_time_elapsed; now apply Qltb_lt, T.
  - now apply M.
Qed.

End RecognizerRuns.

Section CounterSinceEntry.
Variables (hw : Hardware) (action : string).

Lemma samples_ext (s s' : State) (n : nat) :
  clk_reads s = clk_reads s' -> dt_reads s = dt_reads s' ->
  samples hw s n = samples hw s' n.
Proof. unfold samples; now intros -> ->. Qed.

Lemma iteration_encoder (s : State) :
  encoder_value (snd (iteration hw action s))
  = encoder_value (update_encoder hw s)
  /\ last_state (snd (iteration hw action s)) = last_state (update_encoder hw s)
  /\ clk_reads (snd (iteration hw action s)) = clk_reads (update_encoder hw s)
  /\ dt_reads (snd (iteration hw action s)) = dt_reads (update_encoder hw s).
Proof.
  unfold iteration; rewrite poll_state; unfold polled, read_accel.
  cbn [read_monotonic snd].
  destruct (acceleration hw _) as [[x y] z].
  destruct (action =? "PAW")%string; repeat split.
Qed.

Lemma after_polls_counter (k : nat) : forall s,
  encoder_value (after_polls hw action k s)
  = encoder_value s + spec_total (last_state s) (samples hw s k).
Proof.
  induction k as [|k IH]; intros s.
  - simpl; lia.
  - cbn [after_polls]; rewrite IH, samples_step.
    destruct (iteration_encoder s) as (E & L & C & D).
    rewrite E, L, (samples_ext _ (update_encoder hw s)) by assumption.
    cbn [spec_total].
    rewrite update_encoder_delta, update_encoder_last; lia.
Qed.

End CounterSinceEntry.

(** A clock that never runs backwards and exceeds every bound reaches every
    deadline, whatever the time limit and whenever the call starts. *)
Lemma advancing_clock_reaches_deadline (hw : Hardware) :
  (forall n, (monotonic hw n <= monotonic hw (S n))%Q) ->
  (forall bound, exists n, (bound <= monotonic hw n)%Q) ->
  forall limit s, exists m, (limit <= elapsed hw s m)%Q.
Proof.
  intros Mono Unb limit s.
  assert (Up : forall i j, (i <= j)%nat ->
                           (monotonic hw i <= monotonic hw j)%Q).
  { intros i j H; induction H as [|j _ IH]; [apply Qle_refl|].
    eapply Qle_trans; [exact IH | apply Mono]. }
  destruct (Unb (monotonic hw (clock_reads s) + limit)%Q) as [n Hn].
  exists n; unfold elapsed.
  assert (H : (monotonic hw n <= monotonic hw (S (clock_reads s) + n))%Q)
    by (apply Up; lia).
  lra.
Qed.

(** C2. Once the monotonic clock reaches the deadline at some loop test,
    [detect_action] returns, for every gesture and every time limit: with
    [n] the first loop test at which the elapsed time is not below the
    limit, any fuel above [n] yields the same result.  The counter is 0 on
    entering the loop, whatever it was before, and at each poll it holds the
    net count of the transitions sampled since entry.  The body of poll [k]
    decides by the gesture's predicate (PAW: button low; TAIL_LEFT: counter
    below -2; TAIL_RIGHT: counter above 2; SHAKE: |filtered x| above 15;
    FLIP: filtered z below -5).  The result is success exactly at the first
    poll before the deadline whose predicate holds, and failure at loop test
    [n] when none does. *)
Theorem detect_action_bounded (hw : Hardware) (action : string) (limit : Q)
    (s : State) :
  (exists m, (limit <= elapsed hw s m)%Q) ->
  exists n b s',
    ((limit <= elapsed hw s n)%Q
     /\ forall k, (k < n)%nat -> (elapsed hw s k < limit)%Q)
    /\ (forall fuel, (n < fuel)%nat ->
        detect_action hw fuel action limit s = Some (b, s'))
    /\ (encoder_value (entry hw s) = 0
        /\ (forall fuel v,
            detect_action hw fuel action limit (set_encoder_value v s)
            = detect_action hw fuel action limit s)
        /\ forall k,
            encoder_value (after_polls hw action k (entry hw s))
            = spec_total (last_state s) (samples hw s k))
    /\ (forall k,
        hit hw action s k
        = gesture_predicate action
            (sw_value hw (sw_reads (after_polls hw action k (entry hw s))))
            (encoder_value (after_polls hw action (S k) (entry hw s)))
            (fx (after_polls hw action (S k) (entry hw s)))
            (fz (after_polls hw action (S k) (entry hw s))))
    /\ (b = true ->
        exists k, (k < n)%nat /\ hit hw action s k = true
                  /\ (forall j, (j < k)%nat -> hit hw action s j = false)
                  /\ s' = after_polls hw action (S k) (entry hw s))
    /\ (b = false ->
        (forall k, (k < n)%nat -> hit hw action s k = false)
        /\ s' = snd (read_monotonic hw (after_polls hw action n (entry hw s)))).
Proof.
  intros D.
  destruct (first_deadline hw limit s D) as (n & Hn & Hbefore).
  assert (Facts :
    (encoder_value (entry hw s) = 0
     /\ (forall fuel v,
         detect_action hw fuel action limit (set_encoder_value v s)
         = detect_action hw fuel action limit s)
     /\ forall k,
         encoder_value (after_polls hw action k (entry hw s))
         = spec_total (last_state s) (samples hw s k))
    /\ (forall k,
        hit hw action s k
        = gesture_predicate action
            (sw_value hw (sw_reads (after_polls hw action k (entry hw s))))
            (encoder_value (after_polls hw action (S k) (entry hw s)))
            (fx (after_polls hw action (S k) (entry hw s)))
            (fz (after_polls hw action (S k) (entry hw s))))).
  { repeat apply conj.
    - reflexivity.
    - reflexivity.
    - intros k; rewrite after_polls_counter.
      rewrite (samples_ext hw (entry hw s) s) by reflexivity.
      reflexivity.
    - intros k; rewrite after_polls_succ.
      unfold hit, iteration; rewrite poll_predicate; reflexivity. }
  destruct Facts as [F1 F2].
  destruct (least_index (hit hw action s) n)
    as [Hmiss | (k & Hk & Hhit & Hfirst)].
  - exists n, false, (snd (read_monotonic hw (after_polls hw action n (entry hw s)))).
    refine (conj (conj Hn Hbefore) (conj _ (conj F1 (conj F2 (conj _ _))))).
    + intros fuel Hf.
      replace fuel with (n + S (fuel - S n))%nat by lia.
      rewrite detect_action_misses by assumption.
      apply detect_loop_timeout.
      rewrite in_time_elapsed; now apply Qltb_ge.
    + discriminate.
    + intros _; split; [assumption | reflexivity].
  - exists n, true, (after_polls hw action (S k) (entry hw s)).
    refine (conj (conj Hn Hbefore) (conj _ (conj F1 (conj F2 (conj _ _))))).
    + intros fuel Hf.
      replace fuel with (k + S (fuel - S k))%nat by lia.
      rewrite detect_action_misses;
        [| intros j Hj; apply Hbefore; lia | assumption].
      rewrite after_polls_succ.
      apply detect_loop_hit; [|exact Hhit].
      rewrite in_time_elapsed; apply Qltb_lt, Hbefore, Hk.
    + intros _; exists k; repeat split; assumption.
    + discriminate.
Qed.

Lemma detect_action_bounded_witness :
  (exists m, (10 <= elapsed steady (initial_state steady) m)%Q)
  /\ exists n b s',
      forall fuel, (n < fuel)%nat ->
        detect_action steady fuel "SHAKE" 10 (initial_state steady)
        = Some (b, s').
Proof.
  assert (D : exists m, (10 <= elapsed steady (initial_state steady) m)%Q).
  { exists 9%nat; vm_compute; discriminate. }
  split; [exact D|].
  destruct (detect_action_bounded steady "SHAKE" 10 (initial_state steady) D)
    as (n & b & s' & _ & R & _).
  exists n, b, s'; exact R.
Defined.

(** A steady raw x of 20 lifts the filtered x above 15 at the seventh poll;
    a raw z of -9.8 brings the filtered z below -5 at the fourth; the button
    is never pressed, so PAW runs into the deadline. *)
Example detect_action_steady :
  option_map (fun r => (fst r, accel_reads (snd r)))
             (detect_action steady 10 "SHAKE" 10 (initial_state steady))
  = Some (true, 7%nat)
  /\ option_map (fun r => (fst r, accel_reads (snd r)))
                (detect_action steady 10 "FLIP" 10 (initial_state steady))
     = Some (true, 4%nat)
  /\ option_map (fun r => (fst r, accel_reads (snd r)))
                (detect_action steady 10 "PAW" 1.84 (initial_state steady))
     = Some (false, 1%nat).
Proof. repeat split; vm_compute; reflexivity. Qed.
(** ** Game loop *)

Lemma range_bounds (lo hi l : Z) : In l (range lo hi) -> lo <= l < hi.
Proof.
  unfold range; rewrite in_map_iff.
  intros (i & <- & Hi); apply in_seq in Hi; lia.
Qed.

Lemma map_seq_offset {A : Type} (n : nat) : forall (f : nat -> A) a,
  map f (seq a n) = map (fun i => f (a + i)%nat) (seq 0 n).
Proof.
  induction n as [|n IH]; intros f a; [reflexivity|].
  cbn [seq map]; rewrite Nat.add_0_r; f_equal.
  rewrite (IH f (S a)), (IH (fun i => f (a + i)%nat) 1%nat).
  apply map_ext; intros i; f_equal; lia.
Qed.

Lemma range_split (lo mid hi : Z) :
  lo <= mid < hi ->
  range lo hi = range lo mid ++ mid :: range (mid + 1) hi.
Proof.
  intros H; unfold range.
  replace (Z.to_nat (hi - lo))
    with (Z.to_nat (mid - lo) + S (Z.to_nat (hi - (mid + 1))))%nat by lia.
  rewrite seq_app, map_app; f_equal.
  rewrite map_seq_offset; cbn [seq map]; f_equal; [lia|].
  rewrite (map_seq_offset _ _ 1%nat).
  apply map_ext; intros i; lia.
Qed.

Section GameFacts.
Variables (hw : Hardware) (fuel : nat) (base : Q).

Lemma play_steps_pass (level : Z) (seq : list string) (s s' : State) :
  steps_pass hw fuel (time_limit base level) seq s s' ->
  forall score,
    play_steps hw fuel base level seq score s
    = Some (Continues (score + Z.of_nat (List.length seq)), s').
Proof.
  induction 1 as [s | act rest s s1 s2 D _ IH]; intros score.
  - cbn; do 3 f_equal; lia.
  - cbn [play_steps]; rewrite D, IH.
    do 3 f_equal; cbn [List.length]; lia.
Qed.

Lemma play_steps_fail (level : Z) (seq : list string) (n : nat)
    (s s' : State) :
  step_fails hw fuel (time_limit base level) seq n s s' ->
  forall score,
    play_steps hw fuel base level seq score s
    = Some (Returned (score + (Z.of_nat n - 1)) false, s').
Proof.
  induction 1 as [act rest s s1 D | act rest n s s1 s2 D _ IH]; intros score.
  - cbn [play_steps]; rewrite D; do 3 f_equal; lia.
  - cbn [play_steps]; rewrite D, IH; do 3 f_equal; lia.
Qed.

Lemma step_fails_bounds (limit : Q) (seq : list string) (n : nat)
    (s s' : State) :
  step_fails hw fuel limit seq n s s' -> (1 <= n <= List.length seq)%nat.
Proof.
  induction 1; cbn [List.length]; lia.
Qed.

Lemma play_levels_pass (levels : list Z) (s s1 : State) :
  levels_pass hw fuel base levels s s1 ->
  (forall l, In l levels -> -1 <= l) ->
  forall rest score,
    play_levels hw fuel base (levels ++ rest) score s
    = play_levels hw fuel base rest
        (score + fold_right Z.add 0 (map level_points levels)) s1.
Proof.
  induction 1 as [s | level levels s s1 s2 P _ IH]; intros B rest score.
  - cbn; f_equal; lia.
  - cbn [app play_levels].
    pose proof (generate_sequence_length hw level s
                  (B level (or_introl eq_refl))) as Len.
    destruct (generate_sequence hw level s) as [seq s0]; cbn [fst snd] in *.
    rewrite (play_steps_pass _ _ _ _ P), IH
      by (intros l Hl; apply B; now right).
    f_equal; cbn [map fold_right]; unfold level_points at 2; lia.
Qed.

End GameFacts.

(** C1. When levels 1 to L-1 are completed and the recognizer first fails
    at step S of level L, [play_game] returns won = false and the points of
    the completed levels, (l + 1) + 5 for each l < L, plus S - 1, with no
    bonus for level L.  Along the way a recognized step adds exactly 1 and a
    completed level adds its steps and a flat 5. *)
Theorem play_game_first_failure (hw : Hardware) (fuel : nat) (diff : string)
    (L : Z) (step : nat) (s s' : State) :
  1 <= L <= 10 ->
  first_failure hw fuel diff L step s s' ->
  play_game hw fuel diff s
  = Some ((prior_levels_score L + (Z.of_nat step - 1), false), s')
  /\ (1 <= Z.of_nat step <= L + 1)
  /\ (forall level act rest score s0 s1,
      detect_action hw fuel act (time_limit (base_time diff) level) s0
      = Some (true, s1) ->
      play_steps hw fuel (base_time diff) level (act :: rest) score s0
      = play_steps hw fuel (base_time diff) level rest (score + 1) s1)
  /\ (forall level rest score s0 s1, -1 <= level ->
      levels_pass hw fuel (base_time diff) [level] s0 s1 ->
      play_levels hw fuel (base_time diff) (level :: rest) score s0
      = play_levels hw fuel (base_time diff) rest
          (score + (level + 1) + 5) s1).
Proof.
  intros HL (s1 & P & F); repeat apply conj.
  - unfold play_game.
    rewrite (range_split 1 L 11) by lia.
    rewrite (play_levels_pass _ _ _ _ _ _ P)
      by (intros l Hl; apply range_bounds in Hl; lia).
    cbn [play_levels].
    destruct (generate_sequence hw L s1) as [seq s0]; cbn [fst snd] in F.
    rewrite (play_steps_fail _ _ _ _ _ _ _ _ F).
    unfold prior_levels_score; do 3 f_equal.
  - apply step_fails_bounds in F; lia.
  - pose proof (step_fails_bounds _ _ _ _ _ _ _ F) as B.
    pose proof (generate_sequence_length hw L s1 ltac:(lia)) as Len.
    lia.
  - intros level act rest score s0 s2 D.
    cbn [play_steps]; now rewrite D.
  - intros level rest score s0 s2 B Q.
    assert (Bs : forall l, In l [level] -> -1 <= l)
      by (intros l [<- | []]; assumption).
    change (level :: rest) with ([level] ++ rest).
    rewrite (play_levels_pass _ _ _ [level] _ _ Q Bs rest score).
    f_equal; cbn; unfold level_points; lia.
Qed.

Lemma play_game_first_failure_witness :
  1 <= 2 <= 10
  /\ (exists s',
      first_failure released_button 3 "EASY" 2 2
                    (initial_state released_button) s'
      /\ play_game released_button 3 "EASY" (initial_state released_button)
         = Some ((prior_levels_score 2 + (Z.of_nat 2 - 1), false), s')).
Proof.
  split; [lia|].
  assert (F : { s' | first_failure released_button 3 "EASY" 2 2
                       (initial_state released_button) s' }).
  { eexists; unfold first_failure; eexists; split.
    - change (range 1 2) with [1].
      eapply levels_pass_cons; [|apply levels_pass_nil].
      eapply steps_pass_cons; [lazy; reflexivity|].
      eapply steps_pass_cons; [lazy; reflexivity|].
      apply steps_pass_nil.
    - eapply step_fails_later; [lazy; reflexivity|].
      eapply step_fails_here; lazy; reflexivity. }
  destruct F as [s' F]; exists s'; split; [exact F|].
  exact (proj1 (play_game_first_failure released_button 3 "EASY" 2 2 _ s'
                  ltac:(lia) F)).
Defined.

Section WinFacts.
Variables (hw : Hardware) (fuel : nat) (base : Q).

Lemma play_steps_outcome (level : Z) (seq : list string) : forall score s r s',
  play_steps hw fuel base level seq score s = Some (r, s') ->
  match r with
  | Continues sc => sc = score + Z.of_nat (List.length seq)
  | Returned _ won => won = false
  end.
Proof.
  induction seq as [|act rest IH]; intros score s r s' H.
  - cbn in H; injection H as <- _; cbn; lia.
  - cbn [play_steps] in H.
    destruct (detect_action hw fuel act (time_limit base level) s)
      as [[[] s1]|]; [| |discriminate].
    + apply IH in H; destruct r; [assumption|].
      cbn [List.length]; lia.
    + injection H as <- _; reflexivity.
Qed.

Lemma play_levels_won (levels : list Z) : forall score s sc s',
  (forall l, In l levels -> -1 <= l) ->
  play_levels hw fuel base levels score s = Some ((sc, true), s') ->
  sc = score + fold_right Z.add 0 (map level_points levels).
Proof.
  induction levels as [|level rest IH]; intros score s sc s' B H.
  - cbn in H; injection H as <- _; cbn; lia.
  - cbn [play_levels] in H.
    pose proof (generate_sequence_length hw level s
                  (B level (or_introl eq_refl))) as Len.
    destruct (generate_sequence hw level s) as [seq s0]; cbn [fst] in Len.
    destruct (play_steps hw fuel base level seq score s0)
      as [[[sc' won | sc'] s1]|] eqn:E; [| |discriminate].
    + apply play_steps_outcome in E; subst won; discriminate.
    + apply play_steps_outcome in E.
      apply IH in H; [|intros l Hl; apply B; now right].
      cbn [map fold_right]; unfold level_points at 1; lia.
Qed.

End WinFacts.

(** C10. Whatever the difficulty, the hardware readings and the gestures
    drawn, a run of [play_game] that returns won = true returns the score
    115: the steps of levels 1 to 10 give 65 points and the ten level
    bonuses give 50. *)
Theorem play_game_win_score (hw : Hardware) (fuel : nat) (diff : string)
    (s s' : State) (score : Z) :
  play_game hw fuel diff s = Some ((score, true), s') ->
  score = 115
  /\ fold_right Z.add 0 (map (fun l => l + 1) (range 1 11)) = 65
  /\ 5 * Z.of_nat (List.length (range 1 11)) = 50.
Proof.
  intros H; unfold play_game in H.
  apply play_levels_won in H.
  - subst score; repeat split.
  - intros l Hl; apply range_bounds in Hl; lia.
Qed.

Lemma play_game_win_score_witness :
  play_game held_button 1 "EASY" (initial_state held_button)
  = Some ((115, true), held_button_final)
  /\ 115 = 115.
Proof.
  assert (E : play_game held_button 1 "EASY" (initial_state held_button)
              = Some ((115, true), held_button_final))
    by (vm_compute; reflexivity).
  split; [exact E|].
  exact (proj1 (play_game_win_score _ _ _ _ _ _ E)).
Defined.
(** Every lost game is a first failure at some level and step. *)
Section LostRuns.
Variables (hw : Hardware) (fuel : nat) (base : Q).

Lemma play_steps_run (level : Z) (seq : list string) : forall score s r s',
  play_steps hw fuel base level seq score s = Some (r, s') ->
  match r with
  | Continues _ => steps_pass hw fuel (time_limit base level) seq s s'
  | Returned _ _ =>
      exists n, step_fails hw fuel (time_limit base level) seq n s s'
  end.
Proof.
  induction seq as [|act rest IH]; intros score s r s' H.
  - cbn in H; injection H as <- <-; constructor.
  - cbn [play_steps] in H.
    destruct (detect_action hw fuel act (time_limit base level) s)
      as [[[] s1]|] eqn:D; [| |discriminate].
    + apply IH in H; destruct r.
      * destruct H as [n H]; exists (S n); econstructor; eassumption.
      * econstructor; eassumption.
    + injection H as <- <-; exists 1%nat; now constructor.
Qed.

Lemma play_levels_run (levels : list Z) : forall score s sc s',
  play_levels hw fuel base levels score s = Some ((sc, false), s') ->
  exists pre L post step s1,
    levels = pre ++ L :: post
    /\ levels_pass hw fuel base pre s s1
    /\ step_fails hw fuel (time_limit base L)
                  (fst (generate_sequence hw L s1)) step
                  (snd (generate_sequence hw L s1)) s'.
Proof.
  induction levels as [|level rest IH]; intros score s sc s' H.
  - discriminate.
  - cbn [play_levels] in H.
    destruct (generate_sequence hw level s) as [seq s0] eqn:G.
    destruct (play_steps hw fuel base level seq score s0)
      as [[[sc' won | sc'] s1]|] eqn:E; [| |discriminate].
    + injection H as -> -> ->.
      apply play_steps_run in E as [n F].
      exists [], level, rest, n, s; rewrite G.
      repeat split; [constructor | exact F].
    + apply play_steps_run in E.
      apply IH in H as (pre & L & post & step & s2 & -> & P & F).
      exists (level :: pre), L, post, step, s2.
      repeat split; [|exact F].
      econstructor; [rewrite G; exact E | exact P].
Qed.

End LostRuns.

Lemma range_length (lo hi : Z) : List.length (range lo hi) = Z.to_nat (hi - lo).
Proof. unfold range; now rewrite length_map, length_seq. Qed.

Lemma app_inj_prefix {A : Type} (l1 : list A) : forall l1' l2 l2',
  List.length l1 = List.length l1' -> l1 ++ l2 = l1' ++ l2' ->
  l1 = l1' /\ l2 = l2'.
Proof.
  induction l1 as [|a l1 IH]; intros [|b l1'] l2 l2' Len E;
    try discriminate; cbn [app] in *.
  - now split.
  - injection E as -> E; injection Len as Len.
    destruct (IH _ _ _ Len E) as [-> ->]; now split.
Qed.

Lemma range_prefix (lo hi L : Z) (pre post : list Z) :
  range lo hi = pre ++ L :: post -> lo <= L < hi /\ pre = range lo L.
Proof.
  intros E.
  pose proof (f_equal (@List.length Z) E) as Len.
  rewrite range_length, length_app in Len; cbn [List.length] in Len.
  set (mid := lo + Z.of_nat (List.length pre)).
  rewrite (range_split lo mid hi) in E by (unfold mid; lia).
  apply app_inj_prefix in E as [P Q].
  - injection Q as Q _; unfold mid in *; subst L.
    split; [lia | now symmetry].
  - rewrite range_length; unfold mid; lia.
Qed.

Lemma play_game_lost (hw : Hardware) (fuel : nat) (diff : string)
    (s s' : State) (score : Z) :
  play_game hw fuel diff s = Some ((score, false), s') ->
  exists L step, 1 <= L <= 10 /\ first_failure hw fuel diff L step s s'.
Proof.
  intros H; unfold play_game in H.
  apply play_levels_run in H as (pre & L & post & step & s1 & E & P & F).
  apply range_prefix in E as [B ->].
  exists L, step; split; [lia|]; exists s1; split; assumption.
Qed.

(** ** High-score table *)

Lemma insert_by_score_perm (e : Entry) (l : list Entry) :
  Permutation (insert_by_score e l) (e :: l).
Proof.
  induction l as [|h t IH]; cbn [insert_by_score]; [reflexivity|].
  destruct (entry_score e <? entry_score h); [|reflexivity].
  rewrite IH; apply perm_swap.
Qed.

Lemma insert_by_score_hd (a e : Entry) (l : list Entry) :
  score_ge a e -> HdRel score_ge a l -> HdRel score_ge a (insert_by_score e l).
Proof.
  intros Hae Hal; destruct l as [|h t]; cbn [insert_by_score].
  - now constructor.
  - destruct (entry_score e <? entry_score h); constructor;
      [now inversion Hal | assumption].
Qed.

Lemma insert_by_score_sorted (e : Entry) (l : list Entry) :
  Sorted score_ge l -> Sorted score_ge (insert_by_score e l).
Proof.
  induction 1 as [|h t St IH Hd]; cbn [insert_by_score].
  - repeat constructor.
  - destruct (entry_score e <? entry_score h) eqn:C.
    + constructor; [assumption|].
      apply insert_by_score_hd; [|assumption].
      unfold score_ge; apply Z.ltb_lt in C; lia.
    + constructor; [now constructor|].
      constructor; unfold score_ge; apply Z.ltb_ge in C; lia.
Qed.

Lemma insert_by_score_stable (k : Z) (e : Entry) (l : list Entry) :
  filter (has_score k) (insert_by_score e l) = filter (has_score k) (e :: l).
Proof.
  induction l as [|h t IH]; cbn [insert_by_score]; [reflexivity|].
  destruct (entry_score e <? entry_score h) eqn:C; [|reflexivity].
  apply Z.ltb_lt in C.
  cbn [filter] in *; rewrite IH; unfold has_score.
  destruct (entry_score h =? k) eqn:Hh, (entry_score e =? k) eqn:He;
    try reflexivity.
  apply Z.eqb_eq in Hh, He; lia.
Qed.

Lemma sorted_by_score_perm (l : list Entry) :
  Permutation (sorted_by_score l) l.
Proof.
  induction l as [|x l IH]; cbn; [reflexivity|].
  now rewrite insert_by_score_perm, IH.
Qed.

Lemma sorted_by_score_sorted (l : list Entry) :
  Sorted score_ge (sorted_by_score l).
Proof.
  induction l as [|x l IH]; cbn; [constructor|].
  now apply insert_by_score_sorted.
Qed.

Lemma sorted_by_score_stable (k : Z) (l : list Entry) :
  filter (has_score k) (sorted_by_score l) = filter (has_score k) l.
Proof.
  induction l as [|x l IH]; [reflexivity|].
  change (sorted_by_score (x :: l))
    with (insert_by_score x (sorted_by_score l)).
  rewrite insert_by_score_stable; cbn [filter]; now rewrite IH.
Qed.

(** A list sorted by descending score is determined by its entries of each
    score taken in order: two stable sorts of one list agree, so the
    insertion sort stands for any stable [sorted]. *)
Lemma sorted_head_greatest (h : Entry) (t : list Entry) (y : Entry) :
  Sorted score_ge (h :: t) -> In y (h :: t) -> entry_score y <= entry_score h.
Proof.
  intros S I.
  apply Sorted_StronglySorted in S;
    [|intros a b c; unfold score_ge; lia].
  apply StronglySorted_inv in S as [_ F].
  destruct I as [<- | I]; [lia|].
  rewrite Forall_forall in F; exact (F y I).
Qed.

Lemma filter_has_score_in (k : Z) (y : Entry) (l : list Entry) :
  In y (filter (has_score k) l) <-> In y l /\ entry_score y = k.
Proof.
  rewrite filter_In; unfold has_score; now rewrite Z.eqb_eq.
Qed.

Lemma filter_has_score_cons (k : Z) (h : Entry) (t : list Entry) :
  filter (has_score k) (h :: t)
  = if entry_score h =? k then h :: filter (has_score k) t
    else filter (has_score k) t.
Proof. reflexivity. Qed.

Lemma stable_sort_unique (l1 : list Entry) : forall l2,
  Sorted score_ge l1 -> Sorted score_ge l2 ->
  (forall k, filter (has_score k) l1 = filter (has_score k) l2) ->
  l1 = l2.
Proof.
  induction l1 as [|h1 t1 IH]; intros [|h2 t2] S1 S2 F.
  - reflexivity.
  - specialize (F (entry_score h2)).
    rewrite filter_has_score_cons, Z.eqb_refl in F; discriminate.
  - specialize (F (entry_score h1)).
    rewrite filter_has_score_cons, Z.eqb_refl in F; discriminate.
  - assert (E : entry_score h2 = entry_score h1).
    { apply Z.le_antisymm.
      - apply (sorted_head_greatest h1 t1); [assumption|].
        apply (filter_has_score_in (entry_score h2)).
        rewrite F; apply filter_has_score_in; split; [now left | reflexivity].
      - apply (sorted_head_greatest h2 t2); [assumption|].
        apply (filter_has_score_in (entry_score h1)).
        rewrite <- F; apply filter_has_score_in; split; [now left | reflexivity]. }
    assert (H : h1 = h2 /\ forall k, filter (has_score k) t1
                                     = filter (has_score k) t2).
    { pose proof (F (entry_score h1)) as F1.
      rewrite !filter_has_score_cons, E, Z.eqb_refl in F1.
      injection F1 as Hh Ft.
      split; [assumption|]; intros k.
      destruct (Z.eq_dec k (entry_score h1)) as [-> | Nk]; [assumption|].
      specialize (F k); rewrite !filter_has_score_cons, E in F.
      destruct (entry_score h1 =? k) eqn:C; [apply Z.eqb_eq in C; lia|].
      exact F. }
    destruct H as [-> Ft]; f_equal.
    apply IH; [now inversion S1 | now inversion S2 | assumption].
Qed.

Lemma sorted_by_score_unique (l l' : list Entry) :
  Sorted score_ge l' ->
  (forall k, filter (has_score k) l' = filter (has_score k) l) ->
  l' = sorted_by_score l.
Proof.
  intros S F; apply stable_sort_unique;
    [assumption | apply sorted_by_score_sorted|].
  intros k; now rewrite sorted_by_score_stable.
Qed.

(** C5. When the score beats the last entry, [end_screen] appends the new
    entry, sorts by score descending and keeps the first 3: the table shown
    is the first three entries of a list that is a permutation of the old
    entries followed by the new one, descending by score, in which entries
    of equal score stand in their prior order with the new entry last, and
    that list is the only one with these properties; the table never holds
    more than 3 entries.  Inserting 70 into A 100, B 80, C 60 gives A 100,
    B 80, NEW 70. *)
Theorem update_scores_insert (score : Z) (initials : string)
    (scores : list Entry) (third : Entry) :
  last_item scores = Ok third ->
  score > entry_score third ->
  (exists all,
      update_scores score initials scores = Ok (true, firstn 3 all)
      /\ Permutation all (scores ++ [mkEntry initials score])
      /\ Sorted score_ge all
      /\ (forall k, filter (has_score k) all
                    = filter (has_score k) (scores ++ [mkEntry initials score]))
      /\ (forall other,
            Sorted score_ge other ->
            (forall k, filter (has_score k) other
                       = filter (has_score k)
                           (scores ++ [mkEntry initials score])) ->
            other = all)
      /\ (List.length (firstn 3 all) <= 3)%nat)
  /\ update_scores 70 "NEW" [mkEntry "A" 100; mkEntry "B" 80; mkEntry "C" 60]
     = Ok (true, [mkEntry "A" 100; mkEntry "B" 80; mkEntry "NEW" 70]).
Proof.
  intros L G; split; [|reflexivity].
  exists (sorted_by_score (scores ++ [mkEntry initials score])).
  repeat apply conj.
  - unfold update_scores; rewrite L.
    apply Z.gt_lt, Z.gtb_lt in G; now rewrite G.
  - apply sorted_by_score_perm.
  - apply sorted_by_score_sorted.
  - intros k; apply sorted_by_score_stable.
  - intros other S F; now apply sorted_by_score_unique.
  - rewrite length_firstn; lia.
Qed.

Lemma update_scores_insert_witness :
  last_item [mkEntry "A" 100; mkEntry "B" 80; mkEntry "C" 60]
  = Ok (mkEntry "C" 60)
  /\ 70 > 60
  /\ exists all,
      update_scores 70 "NEW" [mkEntry "A" 100; mkEntry "B" 80; mkEntry "C" 60]
      = Ok (true, firstn 3 all)
      /\ Sorted score_ge all.
Proof.
  split; [reflexivity|]; split; [lia|].
  destruct (proj1 (update_scores_insert 70 "NEW"
                     [mkEntry "A" 100; mkEntry "B" 80; mkEntry "C" 60]
                     (mkEntry "C" 60) eq_refl eq_refl))
    as (all & U & _ & S & _).
  exists all; split; assumption.
Defined.


Lemma last_item_inv (l : list Entry) (e : Entry) :
  last_item l = Ok e -> exists pre, l = pre ++ [e].
Proof.
  unfold last_item; intros H.
  destruct (rev l) as [|x r] eqn:R; [discriminate|].
  injection H as ->; exists (rev r).
  now rewrite <- (rev_involutive l), R.
Qed.









(** On an unsorted table the last entry is not the lowest either. *)
Example update_scores_unsorted_table :
  spec_qualifies 50 [mkEntry "A" 0; mkEntry "B" 50; mkEntry "C" 100] = true
  /\ update_scores 50 "NEW" [mkEntry "A" 0; mkEntry "B" 50; mkEntry "C" 100]
     = Ok (false, [mkEntry "A" 0; mkEntry "B" 50; mkEntry "C" 100]).
Proof. split; reflexivity. Qed.

Lemma firstn_sorted (l : list Entry) : forall n,
  Sorted score_ge l -> Sorted score_ge (firstn n l).
Proof.
  induction l as [|h t IH]; intros [|n] S; cbn [firstn]; try constructor.
  - apply IH; now inversion S.
  - inversion S as [|? ? _ Hd]; subst.
    destruct t as [|a t], n; cbn [firstn]; constructor.
    now inversion Hd.
Qed.

(** Tables the program itself writes stay sorted, with 3 entries. *)
Lemma update_scores_keeps_shape (score : Z) (initials : string)
    (scores shown : list Entry) (asked : bool) :
  Sorted score_ge scores -> List.length scores = 3%nat ->
  update_scores score initials scores = Ok (asked, shown) ->
  Sorted score_ge shown /\ List.length shown = 3%nat.
Proof.
  intros S Len; unfold update_scores.
  destruct (last_item scores) as [third|]; [|discriminate].
  destruct (score >? entry_score third); intros H.
  - assert (E : shown
                = firstn 3 (sorted_by_score
                              (scores ++ [mkEntry initials score])))
      by congruence.
    rewrite E; split.
    + apply firstn_sorted, sorted_by_score_sorted.
    + rewrite length_firstn.
      rewrite (Permutation_length (sorted_by_score_perm _)), length_app, Len.
      reflexivity.
  - injection H as _ <-; now split.
Qed.

Example default_scores_shape :
  Sorted score_ge DEFAULT_SCORES /\ List.length DEFAULT_SCORES = 3%nat.
Proof. split; [repeat constructor; unfold score_ge; cbn; lia | reflexivity]. Qed.

(** C9. [load_highscores] never raises; whenever opening or decoding the
    store raises, for whatever reason, it returns the three default entries
    AAA, BBB and CCC with score 0. *)
Theorem load_highscores_fallback
    (json_load : string -> result (list Entry)) (store : option string)
    (e : exn) :
  read_store json_load store = Raise e ->
  load_highscores json_load store = Ok DEFAULT_SCORES
  /\ DEFAULT_SCORES = [mkEntry "AAA" 0; mkEntry "BBB" 0; mkEntry "CCC" 0]
  /\ (forall store', exists scores,
        load_highscores json_load store' = Ok scores)
  /\ load_highscores json_load None = Ok DEFAULT_SCORES.
Proof.
  intros H; repeat apply conj; try reflexivity.
  - unfold load_highscores; now rewrite H.
  - intros store'; unfold load_highscores, try_except.
    destruct (read_store json_load store'); eauto.
Qed.

Lemma load_highscores_fallback_witness :
  read_store (fun _ => Raise ValueError) (Some "[{"%string) = Raise ValueError
  /\ load_highscores (fun _ => Raise ValueError) (Some "[{"%string)
     = Ok DEFAULT_SCORES.
Proof.
  split; [reflexivity|].
  exact (proj1 (load_highscores_fallback (fun _ => Raise ValueError)
                  (Some "[{"%string) ValueError eq_refl)).
Defined.

(** * Further properties of the engine *)

(** ** The filter stays within the range of its input *)

Lemma read_accel_n_within (hw : Hardware) (a : Axis) (lo hi : Q) (s : State) :
  (forall i, (lo <= raw a (acceleration hw (accel_reads s + i)%nat) <= hi)%Q) ->
  (lo <= filtered a s <= hi)%Q ->
  forall n, (lo <= filtered a (read_accel_n hw n s) <= hi)%Q.
Proof.
  intros R F n; induction n as [|n IH]; [exact F|].
  rewrite read_accel_n_succ.
  pose proof (read_accel_axis hw a (read_accel_n hw n s)) as E.
  rewrite read_accel_n_reads in E.
  specialize (R n).
  set (r := raw a (acceleration hw (accel_reads s + n)%nat)) in *.
  set (f := filtered a (read_accel_n hw n s)) in *.
  set (f' := filtered a (snd (read_accel hw (read_accel_n hw n s)))) in *.
  lra.
Qed.



(** ** The decoder counts at most every other call *)

Lemma spec_total_bound (pairs : list (bool * bool)) : forall prev,
  Z.abs (spec_total prev pairs)
  <= (Z.of_nat (List.length pairs) + (if fst prev then 0 else 1)) / 2.
Proof.
  induction pairs as [|p rest IH]; intros prev.
  - cbn; destruct (fst prev); cbn; lia.
  - cbn [spec_total List.length]; specialize (IH p).
    assert (D : spec_delta prev p = 0
                \/ (fst prev = false /\ fst p = true
                    /\ Z.abs (spec_delta prev p) = 1)).
    { unfold spec_delta.
      destruct prev as [[] []], p as [[] []]; cbn; auto. }
    rewrite Nat2Z.inj_succ.
    destruct D as [-> | (-> & Hp & D)].
    + destruct (fst p), (fst prev); Z.div_mod_to_equations; lia.
    + rewrite Hp in IH; Z.div_mod_to_equations; lia.
Qed.

(** X3. Over [n] calls of [update_encoder] the counter moves by at most
    (n + 1) / 2: a count needs the clock low on the call before, so two
    calls in a row never both count. *)
Theorem update_encoder_n_rate (hw : Hardware) (n : nat) (s : State) :
  Z.abs (encoder_value (update_encoder_n hw n s) - encoder_value s)
  <= (Z.of_nat n + 1) / 2.
Proof.
  rewrite update_encoder_n_total.
  pose proof (spec_total_bound (samples hw s n) (last_state s)) as B.
  unfold samples in B; rewrite length_map, length_seq in B.
  fold (samples hw s n) in B.
  destruct (fst (last_state s)); Z.div_mod_to_equations; lia.
Qed.

(** ** What the recognizer cannot report *)

Section RecognizerLimits.
Variable hw : Hardware.

Lemma detect_loop_success (action : string) (limit start : Q) (fuel : nat) :
  forall s s',
    detect_loop hw fuel action limit start s = Some (true, s') ->
    exists k, fst (iteration hw action (after_polls hw action k s)) = true
              /\ s' = after_polls hw action (S k) s.
Proof.
  induction fuel as [|fuel IH]; intros s s' H; [discriminate|].
  cbn [detect_loop read_monotonic] in H.
  destruct (Qltb _ limit); [|discriminate].
  destruct (poll hw action _) as [h s2] eqn:E.
  assert (Es : iteration hw action s = (h, s2)) by exact E.
  destruct h.
  - injection H as <-; exists 0%nat; cbn [after_polls]; rewrite Es; now split.
  - apply IH in H as (k & Hk & ->).
    exists (S k); cbn [after_polls]; rewrite Es; now split.
Qed.

Lemma detect_action_success (action : string) (limit : Q) (fuel : nat)
    (s s' : State) :
  detect_action hw fuel action limit s = Some (true, s') ->
  exists k, hit hw action s k = true
            /\ s' = after_polls hw action (S k) (entry hw s).
Proof.
  rewrite detect_action_loop; apply detect_loop_success.
Qed.

Lemma hit_predicate (action : string) (s : State) (k : nat) :
  hit hw action s k
  = gesture_predicate action
      (sw_value hw (sw_reads (after_polls hw action k (entry hw s))))
      (encoder_value (after_polls hw action (S k) (entry hw s)))
      (fx (after_polls hw action (S k) (entry hw s)))
      (fz (after_polls hw action (S k) (entry hw s))).
Proof.
  rewrite after_polls_succ.
  unfold hit, iteration; rewrite poll_predicate; reflexivity.
Qed.

Lemma iteration_filter (action : string) (s r : State) :
  fx s = fx r -> fy s = fy r -> fz s = fz r -> accel_reads s = accel_reads r ->
  fx (snd (iteration hw action s)) = fx (snd (read_accel hw r))
  /\ fy (snd (iteration hw action s)) = fy (snd (read_accel hw r))
  /\ fz (snd (iteration hw action s)) = fz (snd (read_accel hw r))
  /\ accel_reads (snd (iteration hw action s))
     = accel_reads (snd (read_accel hw r)).
Proof.
  intros X Y Z A.
  unfold iteration; rewrite poll_state; unfold polled, read_accel.
  cbn [read_monotonic snd update_encoder accel_reads fx fy fz].
  rewrite A, X, Y, Z.
  destruct (acceleration hw (accel_reads r)) as [[x y] z].
  destruct (action =? "PAW")%string; repeat split.
Qed.

Lemma after_polls_filter (action : string) (k : nat) : forall s r,
  fx s = fx r -> fy s = fy r -> fz s = fz r -> accel_reads s = accel_reads r ->
  fx (after_polls hw action k s) = fx (read_accel_n hw k r)
  /\ fy (after_polls hw action k s) = fy (read_accel_n hw k r)
  /\ fz (after_polls hw action k s) = fz (read_accel_n hw k r)
  /\ accel_reads (after_polls hw action k s)
     = accel_reads (read_accel_n hw k r).
Proof.
  induction k as [|k IH]; intros s r X Y Z A; [now repeat split|].
  cbn [after_polls read_accel_n].
  destruct (iteration_filter action s r X Y Z A) as (X' & Y' & Z' & A').
  now apply IH.
Qed.

Lemma after_polls_clk (action : string) (k : nat) : forall s,
  clk_reads (after_polls hw action k s) = (clk_reads s + k)%nat.
Proof.
  induction k as [|k IH]; intros s; cbn [after_polls]; [lia|].
  destruct (iteration_encoder hw action s) as (_ & _ & C & _).
  rewrite IH, C; cbn; lia.
Qed.

End RecognizerLimits.

(** X2. A motion whose raw x stays within -15 .. 15, met with a filtered x
    within -15 .. 15, is never taken for a shake: [detect_action] for SHAKE
    does not return success, whatever the time limit. *)
Theorem detect_action_gentle_shake (hw : Hardware) (fuel : nat) (limit : Q)
    (s : State) (r : bool * State) :
  (forall i, (-15 <= raw AxisX (acceleration hw (accel_reads s + i)%nat)
              <= 15)%Q) ->
  (-15 <= fx s <= 15)%Q ->
  detect_action hw fuel "SHAKE" limit s = Some r ->
  fst r = false.
Proof.
  intros R F H; destruct r as [[] s']; [exfalso|reflexivity].
  apply detect_action_success in H as (k & Hk & _).
  rewrite hit_predicate in Hk.
  change (Qltb 15 (Qabs (fx (after_polls hw "SHAKE" (S k) (entry hw s))))
          = true) in Hk.
  destruct (after_polls_filter hw "SHAKE" (S k) (entry hw s) s)
    as (X & _); try reflexivity.
  rewrite X in Hk.
  pose proof (read_accel_n_within hw AxisX (-15) 15 s R F (S k)) as B.
  cbn [filtered] in B.
  apply Qltb_lt in Hk.
  apply (Qlt_not_le _ _ Hk), Qabs_Qle_condition; exact B.
Qed.

Lemma detect_action_gentle_shake_witness :
  (forall i, (-15 <= raw AxisX (acceleration released_button
                        (accel_reads (initial_state released_button) + i)%nat)
              <= 15)%Q)
  /\ (-15 <= fx (initial_state released_button) <= 15)%Q
  /\ option_map fst (detect_action released_button 3 "SHAKE" 1.5
                       (initial_state released_button))
     = Some false.
Proof.
  assert (R : forall i,
             (-15 <= raw AxisX (acceleration released_button
                        (accel_reads (initial_state released_button) + i)%nat)
              <= 15)%Q)
    by (intros i; split; vm_compute; discriminate).
  assert (F : (-15 <= fx (initial_state released_button) <= 15)%Q)
    by (split; vm_compute; discriminate).
  split; [exact R|]; split; [exact F|].
  destruct (detect_action released_button 3 "SHAKE" 1.5
              (initial_state released_button)) as [r|] eqn:E;
    [|vm_compute in E; discriminate E].
  cbn [option_map]; f_equal.
  exact (detect_action_gentle_shake released_button 3 1.5 _ r R F E).
Defined.

Import MoreBoards.

(** X4. A rotation gesture is never recognized in fewer than five polls:
    when [detect_action] returns success for TAIL_LEFT or TAIL_RIGHT, it has
    read the clock pin at least five times since entry. *)
Theorem detect_action_rotation_polls (hw : Hardware) (fuel : nat)
    (action : string) (limit : Q) (s s' : State) :
  action = "TAIL_LEFT"%string \/ action = "TAIL_RIGHT"%string ->
  detect_action hw fuel action limit s = Some (true, s') ->
  (clk_reads s + 5 <= clk_reads s')%nat.
Proof.
  intros A H.
  apply detect_action_success in H as (k & Hk & ->).
  rewrite after_polls_clk; cbn [entry read_monotonic snd clk_reads].
  rewrite hit_predicate, after_polls_counter in Hk.
  pose proof (spec_total_bound (samples hw (entry hw s) (S k))
                (last_state (entry hw s))) as B.
  unfold samples in B at 2; rewrite length_map, length_seq in B.
  change (encoder_value (entry hw s)) with 0 in Hk.
  remember (spec_total (last_state (entry hw s))
              (samples hw (entry hw s) (S k))) as t eqn:Et; clear Et.
  assert (C : 3 <= Z.abs t).
  { destruct A as [-> | ->]; cbn in Hk; apply Z.ltb_lt in Hk; lia. }
  change (clk_reads (set_encoder_value 0 s)) with (clk_reads s).
  destruct (fst (last_state (entry hw s)));
    Z.div_mod_to_equations; lia.
Qed.

Lemma detect_action_rotation_polls_witness :
  ("TAIL_LEFT"%string = "TAIL_LEFT"%string
   \/ "TAIL_LEFT"%string = "TAIL_RIGHT"%string)
  /\ exists s',
      detect_action turning_left 8 "TAIL_LEFT" 1.5 (initial_state turning_left)
      = Some (true, s')
      /\ (clk_reads (initial_state turning_left) + 5 <= clk_reads s')%nat.
Proof.
  split; [now left|].
  destruct (detect_action turning_left 8 "TAIL_LEFT" 1.5
              (initial_state turning_left)) as [[b s']|] eqn:E;
    [|vm_compute in E; discriminate E].
  assert (Hb : b = true).
  { vm_compute in E; injection E as <- _; reflexivity. }
  subst b; exists s'; split; [reflexivity|].
  exact (detect_action_rotation_polls turning_left 8 "TAIL_LEFT" 1.5 _ s'
           (or_introl eq_refl) E).
Defined.

(** X5. An action that is not one of the five in [ACTIONS] is never
    recognized: [detect_action] polls until the deadline and does not return
    success. *)
Theorem detect_action_unknown (hw : Hardware) (fuel : nat) (action : string)
    (limit : Q) (s : State) (r : bool * State) :
  ~ In action ACTIONS ->
  detect_action hw fuel action limit s = Some r ->
  fst r = false.
Proof.
  intros N H; destruct r as [[] s']; [exfalso|reflexivity].
  apply detect_action_success in H as (k & Hk & _).
  rewrite hit_predicate in Hk; unfold gesture_predicate in Hk.
  repeat match type of Hk with
         | context [(action =? ?a)%string] =>
             destruct (String.eqb_spec action a) as [-> | _];
             [apply N; cbn; tauto|]
         end.
  discriminate.
Qed.

Lemma detect_action_unknown_witness :
  ~ In "PURR"%string ACTIONS
  /\ option_map fst (detect_action released_button 3 "PURR" 1.5
                       (initial_state released_button))
     = Some false.
Proof.
  assert (N : ~ In "PURR"%string ACTIONS).
  { cbn; intros H; repeat destruct H as [H | H]; try discriminate H; exact H. }
  split; [exact N|].
  destruct (detect_action released_button 3 "PURR" 1.5
              (initial_state released_button)) as [r|] eqn:E;
    [|vm_compute in E; discriminate E].
  cbn [option_map]; f_equal.
  exact (detect_action_unknown released_button 3 "PURR" 1.5 _ r N E).
Defined.

(** X6. With a time limit that is zero or negative the recognizer fails at
    its first loop test, on a clock that did not run backwards since the
    start was read: it returns failure having read no pin and no
    acceleration, with the counter reset. *)
Theorem detect_action_no_time (hw : Hardware) (fuel : nat) (action : string)
    (limit : Q) (s : State) :
  (limit <= 0)%Q ->
  (monotonic hw (clock_reads s) <= monotonic hw (S (clock_reads s)))%Q ->
  exists s',
    detect_action hw (S fuel) action limit s = Some (false, s')
    /\ encoder_value s' = 0
    /\ clk_reads s' = clk_reads s /\ dt_reads s' = dt_reads s
    /\ sw_reads s' = sw_reads s /\ accel_reads s' = accel_reads s
    /\ fx s' = fx s /\ fy s' = fy s /\ fz s' = fz s
    /\ clock_reads s' = (clock_reads s + 2)%nat.
Proof.
  intros L M.
  exists (snd (read_monotonic hw (entry hw s))); split.
  - rewrite detect_action_loop; apply detect_loop_timeout.
    unfold in_time, entry, set_encoder_value; apply Qltb_ge.
    cbn [read_monotonic snd clock_reads].
    lra.
  - cbn; repeat split; lia.
Qed.

Lemma detect_action_no_time_witness :
  (0 <= 0)%Q
  /\ (monotonic steady (clock_reads (initial_state steady))
      <= monotonic steady (S (clock_reads (initial_state steady))))%Q
  /\ exists s',
      detect_action steady 1 "PAW" 0 (initial_state steady) = Some (false, s')
      /\ accel_reads s' = accel_reads (initial_state steady).
Proof.
  assert (L : (0 <= 0)%Q) by apply Qle_refl.
  assert (M : (monotonic steady (clock_reads (initial_state steady))
               <= monotonic steady (S (clock_reads (initial_state steady))))%Q)
    by (vm_compute; discriminate).
  split; [exact L|]; split; [exact M|].
  destruct (detect_action_no_time steady 0 "PAW" 0 (initial_state steady) L M)
    as (s' & E & _ & _ & _ & _ & A & _).
  exists s'; split; assumption.
Defined.

(** ** The whole game: fuel, termination and the range of scores *)

Section FuelFacts.
Variable hw : Hardware.

Lemma detect_loop_more_fuel (action : string) (limit start : Q) (fuel : nat) :
  forall fuel' s r,
    detect_loop hw fuel action limit start s = Some r ->
    (fuel <= fuel')%nat ->
    detect_loop hw fuel' action limit start s = Some r.
Proof.
  induction fuel as [|fuel IH]; intros fuel' s r H Le; [discriminate|].
  destruct fuel' as [|fuel']; [lia|].
  cbn [detect_loop] in *.
  destruct (read_monotonic hw s) as [now s1].
  destruct (Qltb (now - start) limit); [|exact H].
  destruct (poll hw action s1) as [[] s2]; [exact H|].
  apply IH; [exact H | lia].
Qed.

Lemma detect_action_more_fuel (action : string) (limit : Q)
    (fuel fuel' : nat) (s : State) (r : bool * State) :
  detect_action hw fuel action limit s = Some r ->
  (fuel <= fuel')%nat ->
  detect_action hw fuel' action limit s = Some r.
Proof.
  rewrite !detect_action_loop; apply detect_loop_more_fuel.
Qed.

Lemma play_steps_more_fuel (base : Q) (level : Z) (fuel fuel' : nat)
    (seq : list string) : forall score s r,
  play_steps hw fuel base level seq score s = Some r ->
  (fuel <= fuel')%nat ->
  play_steps hw fuel' base level seq score s = Some r.
Proof.
  induction seq as [|act rest IH]; intros score s r H Le; [exact H|].
  cbn [play_steps] in *.
  destruct (detect_action hw fuel act (time_limit base level) s)
    as [[b s1]|] eqn:D; [|discriminate].
  rewrite (detect_action_more_fuel _ _ _ _ _ _ D Le).
  destruct b; [now apply IH | exact H].
Qed.

Lemma play_levels_more_fuel (base : Q) (fuel fuel' : nat) (levels : list Z) :
  forall score s r,
    play_levels hw fuel base levels score s = Some r ->
    (fuel <= fuel')%nat ->
    play_levels hw fuel' base levels score s = Some r.
Proof.
  induction levels as [|level rest IH]; intros score s r H Le; [exact H|].
  cbn [play_levels] in *.
  destruct (generate_sequence hw level s) as [seq s1].
  destruct (play_steps hw fuel base level seq score s1)
    as [[[sc won | sc] s2]|] eqn:P; [| |discriminate];
    rewrite (play_steps_more_fuel _ _ _ _ _ _ _ _ P Le);
    [exact H | now apply IH].
Qed.

Hypothesis reaches :
  forall limit s, exists m, (limit <= elapsed hw s m)%Q.

Lemma detect_action_returns (action : string) (limit : Q) (s : State) :
  exists fuel r, detect_action hw fuel action limit s = Some r.
Proof.
  destruct (first_deadline hw limit s (reaches limit s)) as (n & Hn & Hbefore).
  destruct (least_index (hit hw action s) n)
    as [Hmiss | (k & Hk & Hhit & Hfirst)].
  - exists (n + 1)%nat; eexists.
    rewrite detect_action_misses by assumption.
    apply detect_loop_timeout.
    rewrite in_time_elapsed; now apply Qltb_ge.
  - exists (k + 1)%nat; eexists.
    rewrite detect_action_misses;
      [| intros j Hj; apply Hbefore; lia | assumption].
    apply detect_loop_hit; [|exact Hhit].
    rewrite in_time_elapsed; apply Qltb_lt, Hbefore, Hk.
Qed.

Lemma play_steps_returns (base : Q) (level : Z) (seq : list string) :
  forall score s,
    exists fuel r, play_steps hw fuel base level seq score s = Some r.
Proof.
  induction seq as [|act rest IH]; intros score s.
  - exists 0%nat; eexists; reflexivity.
  - destruct (detect_action_returns act (time_limit base level) s)
      as (f1 & [b s1] & D).
    destruct b.
    + destruct (IH (score + 1) s1) as (f2 & r & P).
      exists (Nat.max f1 f2), r; cbn [play_steps].
      rewrite (detect_action_more_fuel _ _ _ _ _ _ D (Nat.le_max_l f1 f2)).
      exact (play_steps_more_fuel _ _ _ _ _ _ _ _ P (Nat.le_max_r f1 f2)).
    + exists f1; eexists; cbn [play_steps]; rewrite D; reflexivity.
Qed.

Lemma play_levels_returns (base : Q) (levels : list Z) :
  forall score s,
    exists fuel r, play_levels hw fuel base levels score s = Some r.
Proof.
  induction levels as [|level rest IH]; intros score s.
  - exists 0%nat; eexists; reflexivity.
  - cbn [play_levels].
    destruct (generate_sequence hw level s) as [seq s1].
    destruct (play_steps_returns base level seq score s1)
      as (f1 & [[sc won | sc] s2] & P).
    + exists f1; eexists; rewrite P; reflexivity.
    + destruct (IH (sc + 5) s2) as (f2 & r & Q).
      exists (Nat.max f1 f2), r.
      rewrite (play_steps_more_fuel _ _ _ _ _ _ _ _ P (Nat.le_max_l f1 f2)).
      exact (play_levels_more_fuel _ _ _ _ _ _ _ Q (Nat.le_max_r f1 f2)).
Qed.

End FuelFacts.

Lemma steady_clock_monotone (n : nat) :
  (monotonic steady n <= monotonic steady (S n))%Q.
Proof. cbn [monotonic steady]; rewrite <- Zle_Qle; lia. Qed.

Lemma steady_clock_unbounded (bound : Q) :
  exists n, (bound <= monotonic steady n)%Q.
Proof.
  exists (Z.to_nat (Qceiling bound)); cbn [monotonic steady].
  apply Qle_trans with (inject_Z (Qceiling bound)); [apply Qle_ceiling|].
  rewrite <- Zle_Qle; lia.
Qed.

(** X7. On a clock that never runs backwards and exceeds every bound,
    [play_game] returns for every difficulty and from every state: some
    amount of fuel yields a result, and every larger amount yields the same
    one. *)
Theorem play_game_returns (hw : Hardware) (diff : string) (s : State) :
  (forall n, (monotonic hw n <= monotonic hw (S n))%Q) ->
  (forall bound, exists n, (bound <= monotonic hw n)%Q) ->
  exists fuel result,
    forall fuel', (fuel <= fuel')%nat ->
                  play_game hw fuel' diff s = Some result.
Proof.
  intros Mono Unb.
  destruct (play_levels_returns hw
              (advancing_clock_reaches_deadline hw Mono Unb)
              (base_time diff) (range 1 11) 0 s) as (fuel & r & H).
  exists fuel, r; intros fuel' Le.
  exact (play_levels_more_fuel _ _ _ _ _ _ _ _ H Le).
Qed.

Lemma play_game_returns_witness :
  (forall n, (monotonic steady n <= monotonic steady (S n))%Q)
  /\ (forall bound, exists n, (bound <= monotonic steady n)%Q)
  /\ exists fuel result,
      forall fuel', (fuel <= fuel')%nat ->
        play_game steady fuel' "HARD" (initial_state steady) = Some result.
Proof.
  split; [exact steady_clock_monotone|].
  split; [exact steady_clock_unbounded|].
  exact (play_game_returns steady "HARD" (initial_state steady)
           steady_clock_monotone steady_clock_unbounded).
Defined.

Section ScoreFacts.
Variables (hw : Hardware) (fuel : nat) (base : Q).

Lemma play_steps_score (level : Z) (seq : list string) : forall score s r s',
  play_steps hw fuel base level seq score s = Some (r, s') ->
  match r with
  | Continues sc => sc = score + Z.of_nat (List.length seq)
  | Returned sc won =>
      won = false /\ score <= sc < score + Z.of_nat (List.length seq)
  end.
Proof.
  induction seq as [|act rest IH]; intros score s r s' H.
  - cbn in H; injection H as <- _; cbn; lia.
  - cbn [play_steps] in H.
    destruct (detect_action hw fuel act (time_limit base level) s)
      as [[[] s1]|]; [| |discriminate].
    + apply IH in H; destruct r; cbn [List.length];
        [destruct H as [-> H]; split; [reflexivity|]|]; lia.
    + injection H as <- _; cbn [List.length]; split; [reflexivity | lia].
Qed.

Lemma play_levels_score (levels : list Z) : forall score s sc won s',
  (forall l, In l levels -> -1 <= l) ->
  play_levels hw fuel base levels score s = Some ((sc, won), s') ->
  if won then sc = score + fold_right Z.add 0 (map level_points levels)
  else score <= sc <= score + fold_right Z.add 0 (map level_points levels) - 6.
Proof.
  induction levels as [|level rest IH]; intros score s sc won s' B H.
  - cbn in H; injection H as <- <- _; cbn; lia.
  - cbn [play_levels] in H.
    pose proof (generate_sequence_length hw level s
                  (B level (or_introl eq_refl))) as Len.
    assert (Rest : 0 <= fold_right Z.add 0 (map level_points rest)).
    { assert (Br : forall l, In l rest -> -1 <= l)
        by (intros l Hl; apply B; now right).
      clear - Br; induction rest as [|a rest IHr]; cbn [map fold_right]; [lia|].
      assert (0 <= fold_right Z.add 0 (map level_points rest))
        by (apply IHr; intros l Hl; apply Br; now right).
      specialize (Br a (or_introl eq_refl)); unfold level_points at 1; lia. }
    destruct (generate_sequence hw level s) as [seq s0]; cbn [fst] in Len.
    cbn [map fold_right]; unfold level_points at 1 3.
    destruct (play_steps hw fuel base level seq score s0)
      as [[[sc' w | sc'] s1]|] eqn:E; [| |discriminate].
    + apply play_steps_score in E as [-> E]; injection H as <- <- _; lia.
    + apply play_steps_score in E.
      apply IH in H; [|intros l Hl; apply B; now right].
      destruct won; lia.
Qed.

End ScoreFacts.

(** X8. Every score [play_game] returns lies between 0 and 115; a won game
    scores exactly 115 and a lost game at most 109, so the score alone tells
    a win from a loss. *)
Theorem play_game_score_range (hw : Hardware) (fuel : nat) (diff : string)
    (s s' : State) (score : Z) (won : bool) :
  play_game hw fuel diff s = Some ((score, won), s') ->
  0 <= score <= 115
  /\ (won = true <-> score = 115)
  /\ (won = false -> score <= 109).
Proof.
  intros H; unfold play_game in H.
  apply play_levels_score in H;
    [|intros l Hl; apply range_bounds in Hl; lia].
  change (fold_right Z.add 0 (map level_points (range 1 11))) with 115 in H.
  destruct won; repeat split; try lia; try discriminate.
Qed.

Lemma play_game_score_range_witness :
  play_game released_button 3 "EASY" (initial_state released_button)
  = Some ((8, false), released_button_final)
  /\ 0 <= 8 <= 115.
Proof.
  assert (E : play_game released_button 3 "EASY"
                (initial_state released_button)
              = Some ((8, false), released_button_final))
    by (vm_compute; reflexivity).
  split; [exact E|].
  exact (proj1 (play_game_score_range released_button 3 "EASY"
                  (initial_state released_button) released_button_final
                  8 false E)).
Defined.

Lemma play_game_failure_score (hw : Hardware) (fuel : nat) (diff : string)
    (L : Z) (step : nat) (s s' : State) :
  1 <= L <= 10 ->
  first_failure hw fuel diff L step s s' ->
  play_game hw fuel diff s
  = Some ((prior_levels_score L + (Z.of_nat step - 1), false), s')
  /\ 1 <= Z.of_nat step <= L + 1.
Proof.
  intros HL (s1 & P & F); split.
  - unfold play_game.
    rewrite (range_split 1 L 11) by lia.
    rewrite (play_levels_pass _ _ _ _ _ _ P)
      by (intros l Hl; apply range_bounds in Hl; lia).
    cbn [play_levels].
    destruct (generate_sequence hw L s1) as [seq s0]; cbn [fst snd] in F.
    rewrite (play_steps_fail _ _ _ _ _ _ _ _ F).
    unfold prior_levels_score; do 3 f_equal.
  - pose proof (step_fails_bounds _ _ _ _ _ _ _ F) as B.
    pose proof (generate_sequence_length hw L s1 ltac:(lia)) as Len.
    lia.
Qed.

Lemma failure_point_unique (L1 L2 : Z) (n1 n2 : Z) :
  1 <= L1 <= 10 -> 1 <= L2 <= 10 ->
  1 <= n1 <= L1 + 1 -> 1 <= n2 <= L2 + 1 ->
  prior_levels_score L1 + (n1 - 1) = prior_levels_score L2 + (n2 - 1) ->
  L1 = L2 /\ n1 = n2.
Proof.
  intros H1 H2 B1 B2 E.
  assert (C1 : L1 = 1 \/ L1 = 2 \/ L1 = 3 \/ L1 = 4 \/ L1 = 5 \/ L1 = 6
               \/ L1 = 7 \/ L1 = 8 \/ L1 = 9 \/ L1 = 10) by lia.
  assert (C2 : L2 = 1 \/ L2 = 2 \/ L2 = 3 \/ L2 = 4 \/ L2 = 5 \/ L2 = 6
               \/ L2 = 7 \/ L2 = 8 \/ L2 = 9 \/ L2 = 10) by lia.
  repeat (destruct C1 as [-> | C1]); try subst L1;
    repeat (destruct C2 as [-> | C2]); try subst L2;
    repeat match type of E with
           | context [prior_levels_score ?L] =>
               let v := eval vm_compute in (prior_levels_score L) in
               change (prior_levels_score L) with v in E
           end;
    lia.
Qed.

(** X9. The score of a lost game tells where it was lost: two runs, on any
    hardware and at any difficulty, that first fail at level L1, step S1 and
    at level L2, step S2 and return the same score have L1 = L2 and
    S1 = S2. *)
Theorem play_game_score_locates_failure
    (hw1 hw2 : Hardware) (fuel1 fuel2 : nat) (diff1 diff2 : string)
    (L1 L2 : Z) (step1 step2 : nat) (s1 s1' s2 s2' : State) (score : Z) :
  1 <= L1 <= 10 -> 1 <= L2 <= 10 ->
  first_failure hw1 fuel1 diff1 L1 step1 s1 s1' ->
  first_failure hw2 fuel2 diff2 L2 step2 s2 s2' ->
  play_game hw1 fuel1 diff1 s1 = Some ((score, false), s1') ->
  play_game hw2 fuel2 diff2 s2 = Some ((score, false), s2') ->
  L1 = L2 /\ step1 = step2.
Proof.
  intros H1 H2 F1 F2 P1 P2.
  destruct (play_game_failure_score _ _ _ _ _ _ _ H1 F1) as [E1 B1].
  destruct (play_game_failure_score _ _ _ _ _ _ _ H2 F2) as [E2 B2].
  rewrite E1 in P1; rewrite E2 in P2.
  injection P1 as P1; injection P2 as P2.
  destruct (failure_point_unique L1 L2 (Z.of_nat step1) (Z.of_nat step2))
    as [-> Hs]; try assumption; [lia|].
  split; [reflexivity | lia].
Qed.

Lemma released_button_run :
  { s' | first_failure released_button 3 "EASY" 2 2
           (initial_state released_button) s' }.
Proof.
  eexists; unfold first_failure; eexists; split.
  - change (range 1 2) with [1].
    eapply levels_pass_cons; [|apply levels_pass_nil].
    eapply steps_pass_cons; [lazy; reflexivity|].
    eapply steps_pass_cons; [lazy; reflexivity|].
    apply steps_pass_nil.
  - eapply step_fails_later; [lazy; reflexivity|].
    eapply step_fails_here; lazy; reflexivity.
Defined.

Lemma play_game_score_locates_failure_witness :
  1 <= 2 <= 10
  /\ first_failure released_button 3 "EASY" 2 2
       (initial_state released_button) (proj1_sig released_button_run)
  /\ play_game released_button 3 "EASY" (initial_state released_button)
     = Some ((8, false), proj1_sig released_button_run)
  /\ (2 = 2 /\ 2%nat = 2%nat).
Proof.
  assert (B : 1 <= 2 <= 10) by lia.
  pose proof (proj2_sig released_button_run) as F.
  assert (P : play_game released_button 3 "EASY"
                (initial_state released_button)
              = Some ((8, false), proj1_sig released_button_run))
    by (vm_compute; reflexivity).
  split; [exact B|]; split; [exact F|]; split; [exact P|].
  exact (play_game_score_locates_failure _ _ _ _ _ _ _ _ _ _ _ _ _ _ _
           B B F F P P).
Defined.

(** ** The table across games *)

Lemma sorted_app_order (l1 l2 : list Entry) (x y : Entry) :
  Sorted score_ge (l1 ++ l2) -> In x l1 -> In y l2 ->
  entry_score y <= entry_score x.
Proof.
  intros S Ix Iy.
  apply Sorted_StronglySorted in S;
    [|intros a b c; unfold score_ge; lia].
  induction l1 as [|h t IH]; [destruct Ix|].
  cbn [app] in S; apply StronglySorted_inv in S as [St F].
  destruct Ix as [<- | Ix]; [|now apply IH].
  rewrite Forall_forall in F.
  apply (F y), in_or_app; now right.
Qed.

(** X10. A qualifying score is never cut off again: when the loaded table
    has at most 3 entries and the score beats its last entry, the table
    shown (and saved) contains the new entry. *)
Theorem update_scores_keeps_new (score : Z) (initials : string)
    (scores : list Entry) (third : Entry) :
  (List.length scores <= 3)%nat ->
  last_item scores = Ok third ->
  score > entry_score third ->
  exists shown,
    update_scores score initials scores = Ok (true, shown)
    /\ In (mkEntry initials score) shown.
Proof.
  intros Len L G.
  set (new := mkEntry initials score).
  set (all := sorted_by_score (scores ++ [new])).
  exists (firstn 3 all); split.
  - unfold update_scores; rewrite L.
    apply Z.gt_lt, Z.gtb_lt in G; now rewrite G.
  - assert (P : Permutation all (scores ++ [new]))
      by apply sorted_by_score_perm.
    assert (S : Sorted score_ge all) by apply sorted_by_score_sorted.
    assert (In_new : In new all).
    { apply (Permutation_in _ (Permutation_sym P)), in_or_app.
      right; now left. }
    assert (In_third : In third all).
    { apply (Permutation_in _ (Permutation_sym P)), in_or_app; left.
      destruct (last_item_inv _ _ L) as [pre ->].
      apply in_or_app; right; now left. }
    assert (LenAll : (List.length all <= 4)%nat).
    { rewrite (Permutation_length P), length_app; cbn [List.length]; lia. }
    rewrite <- (firstn_skipn 3 all) in In_new, In_third, S.
    apply in_app_or in In_new as [I | I]; [exact I|exfalso].
    assert (Tail : skipn 3 all = [new]).
    { pose proof (length_skipn 3 all) as K.
      destruct (skipn 3 all) as [|a [|b t]]; cbn [List.length] in K.
      - destruct I.
      - destruct I as [<- | []]; reflexivity.
      - lia. }
    rewrite Tail in In_third, S.
    apply in_app_or in In_third as [T | [T | []]].
    + pose proof (sorted_app_order _ _ third new S T (or_introl eq_refl)) as O.
      cbn [entry_score new] in O; lia.
    + rewrite <- T in G; cbn [entry_score new] in G; lia.
Qed.

Lemma update_scores_keeps_new_witness :
  (List.length [mkEntry "A" 100; mkEntry "B" 80; mkEntry "C" 60] <= 3)%nat
  /\ last_item [mkEntry "A" 100; mkEntry "B" 80; mkEntry "C" 60]
     = Ok (mkEntry "C" 60)
  /\ 70 > 60
  /\ exists shown,
      update_scores 70 "NEW" [mkEntry "A" 100; mkEntry "B" 80; mkEntry "C" 60]
      = Ok (true, shown)
      /\ In (mkEntry "NEW" 70) shown.
Proof.
  assert (Len : (List.length [mkEntry "A" 100; mkEntry "B" 80; mkEntry "C" 60]
                 <= 3)%nat) by (cbn; lia).
  split; [exact Len|]; split; [reflexivity|]; split; [reflexivity|].
  exact (update_scores_keeps_new 70 "NEW"
           [mkEntry "A" 100; mkEntry "B" 80; mkEntry "C" 60]
           (mkEntry "C" 60) Len eq_refl eq_refl).
Defined.

(** With four entries in the store the bound on the length matters: the
    score asks for a name and is then cut off. *)
Example update_scores_long_table :
  update_scores 150 "NEW"
    [mkEntry "A" 400; mkEntry "B" 300; mkEntry "C" 200; mkEntry "D" 100]
  = Ok (true, [mkEntry "A" 400; mkEntry "B" 300; mkEntry "C" 200]).
Proof. reflexivity. Qed.

(** X11. A store that decodes to the empty list is not covered by the
    fallback of [load_highscores]: the load succeeds and [end_screen] raises
    IndexError at [scores[-1]], whatever the score. *)
Theorem end_screen_empty_table
    (json_load : string -> result (list Entry))
    (json_dump : list Entry -> string)
    (score : Z) (initials text : string) :
  json_load text = Ok [] ->
  load_highscores json_load (Some text) = Ok []
  /\ end_screen json_load json_dump score initials (Some text)
     = Raise IndexError.
Proof.
  intros H.
  assert (L : load_highscores json_load (Some text) = Ok []).
  { unfold load_highscores, read_store; cbn [open_read]; now rewrite H. }
  split; [exact L|].
  unfold end_screen; now rewrite L.
Qed.

Lemma end_screen_empty_table_witness :
  (fun _ : string => @Ok (list Entry) []) "[]"%string = Ok []
  /\ end_screen (fun _ => Ok []) (fun _ => "[]"%string) 42 "CAT" (Some "[]"%string)
     = Raise IndexError.
Proof.
  split; [reflexivity|].
  exact (proj2 (end_screen_empty_table (fun _ => Ok []) (fun _ => "[]"%string)
                  42 "CAT" "[]" eq_refl)).
Defined.

(** X12. What one game shows, the next game loads: when [end_screen] returns
    a table and a store, and the codec decodes its own encoding of that
    table, [load_highscores] on the new store returns the table shown. *)
Theorem end_screen_then_load
    (json_load : string -> result (list Entry))
    (json_dump : list Entry -> string)
    (score : Z) (initials : string) (store store' : option string)
    (shown : list Entry) :
  end_screen json_load json_dump score initials store = Ok (shown, store') ->
  json_load (json_dump shown) = Ok shown ->
  load_highscores json_load store' = Ok shown.
Proof.
  unfold end_screen; intros H C.
  destruct (load_highscores json_load store) as [scores|] eqn:L;
    [|discriminate].
  destruct (update_scores score initials scores) as [[[] t]|] eqn:U;
    [| |discriminate]; injection H as <- <-.
  - unfold load_highscores, read_store, save_highscores; cbn [open_read].
    now rewrite C.
  - unfold update_scores in U.
    destruct (last_item scores); [|discriminate].
    destruct (score >? entry_score a); [discriminate|].
    injection U as <-; exact L.
Qed.

Lemma end_screen_then_load_witness :
  let table := [mkEntry "A" 100; mkEntry "B" 80; mkEntry "C" 60] in
  let shown := [mkEntry "A" 100; mkEntry "B" 80; mkEntry "NEW" 70] in
  let json_load := fun text : string =>
    if (text =? "new")%string then Ok shown else Ok table in
  let json_dump := fun _ : list Entry => "new"%string in
  end_screen json_load json_dump 70 "NEW" (Some "old"%string)
  = Ok (shown, Some "new"%string)
  /\ json_load (json_dump shown) = Ok shown
  /\ load_highscores json_load (Some "new"%string) = Ok shown.
Proof.
  cbv zeta.
  split; [reflexivity|]; split; [reflexivity|].
  exact (end_screen_then_load
           (fun text : string =>
              if (text =? "new")%string
              then Ok [mkEntry "A" 100; mkEntry "B" 80; mkEntry "NEW" 70]
              else Ok [mkEntry "A" 100; mkEntry "B" 80; mkEntry "C" 60])
           (fun _ => "new"%string) 70 "NEW" (Some "old"%string)
           (Some "new"%string)
           [mkEntry "A" 100; mkEntry "B" 80; mkEntry "NEW" 70]
           eq_refl eq_refl).
Defined.

(** X13. Tables of the program's own making keep their shape: a table of 3
    entries sorted by descending score is shown as a table of 3 entries
    sorted by descending score, whether or not the score is inserted. *)
Theorem update_scores_shape (score : Z) (initials : string)
    (scores shown : list Entry) (asked : bool) :
  Sorted score_ge scores -> List.length scores = 3%nat ->
  update_scores score initials scores = Ok (asked, shown) ->
  Sorted score_ge shown /\ List.length shown = 3%nat.
Proof.
  apply update_scores_keeps_shape.
Qed.

Lemma update_scores_shape_witness :
  Sorted score_ge DEFAULT_SCORES
  /\ List.length DEFAULT_SCORES = 3%nat
  /\ update_scores 7 "CAT" DEFAULT_SCORES
     = Ok (true, [mkEntry "CAT" 7; mkEntry "AAA" 0; mkEntry "BBB" 0])
  /\ Sorted score_ge [mkEntry "CAT" 7; mkEntry "AAA" 0; mkEntry "BBB" 0].
Proof.
  assert (S : Sorted score_ge DEFAULT_SCORES)
    by (repeat constructor; unfold score_ge; cbn; lia).
  split; [exact S|]; split; [reflexivity|]; split; [reflexivity|].
  exact (proj1 (update_scores_shape 7 "CAT" DEFAULT_SCORES _ true S eq_refl
                  eq_refl)).
Defined.

(** ** Menus *)

Import Menu.

Lemma difficulty_item (e : Z) :
  exists d, list_item difficulties (Z.abs e mod 3) = Ok d
            /\ nth_error difficulties (Z.to_nat (Z.abs e mod 3)) = Some d
            /\ In d difficulties.
Proof.
  pose proof (Z.mod_pos_bound (Z.abs e) 3 ltac:(lia)) as B.
  assert (C : Z.abs e mod 3 = 0 \/ Z.abs e mod 3 = 1 \/ Z.abs e mod 3 = 2)
    by lia.
  destruct C as [-> | [-> | ->]]; eexists; repeat split; cbn; tauto.
Qed.

Section MenuFacts.
Variable hw : Hardware.

Lemma choose_loop_in_menu (fuel : nat) : forall s r s',
  choose_loop hw fuel s = Some (r, s') ->
  exists d, r = Ok d /\ In d difficulties.
Proof.
  induction fuel as [|fuel IH]; intros s r s' H; [discriminate|].
  cbn [choose_loop] in H.
  destruct (difficulty_item (encoder_value (update_encoder hw s)))
    as (d & E & _ & I).
  rewrite E in H.
  destruct (read_sw hw (update_encoder hw s)) as [v s2].
  destruct (negb v); [|now apply IH in H].
  injection H as <- _; now exists d.
Qed.

Lemma menu_pass_fields (s : State) :
  encoder_value (menu_pass hw s) = encoder_value (update_encoder hw s)
  /\ last_state (menu_pass hw s) = last_state (update_encoder hw s)
  /\ clk_reads (menu_pass hw s) = S (clk_reads s)
  /\ dt_reads (menu_pass hw s) = S (dt_reads s)
  /\ sw_reads (menu_pass hw s) = S (sw_reads s).
Proof. repeat split. Qed.

Lemma menu_passes_succ (k : nat) : forall s,
  menu_passes hw (S k) s = menu_pass hw (menu_passes hw k s).
Proof.
  induction k as [|k IH]; intros s; [reflexivity|].
  change (menu_passes hw (S (S k)) s)
    with (menu_passes hw (S k) (menu_pass hw s)).
  now rewrite IH.
Qed.

Lemma menu_passes_sw (k : nat) : forall s,
  sw_reads (menu_passes hw k s) = (sw_reads s + k)%nat.
Proof.
  induction k as [|k IH]; intros s; cbn [menu_passes]; [lia|].
  rewrite IH; cbn; lia.
Qed.

Lemma menu_passes_counter (k : nat) : forall s,
  encoder_value (menu_passes hw k s)
  = encoder_value s + spec_total (last_state s) (samples hw s k).
Proof.
  induction k as [|k IH]; intros s.
  - cbn; lia.
  - cbn [menu_passes]; rewrite IH, samples_step.
    destruct (menu_pass_fields s) as (E & L & C & D & _).
    rewrite E, L, (samples_ext hw _ (update_encoder hw s)) by assumption.
    cbn [spec_total].
    rewrite update_encoder_delta, update_encoder_last; lia.
Qed.

Lemma choose_loop_skip (k : nat) : forall fuel s,
  (forall j, (j < k)%nat -> sw_value hw (sw_reads s + j) = true) ->
  choose_loop hw (k + fuel) s = choose_loop hw fuel (menu_passes hw k s).
Proof.
  induction k as [|k IH]; intros fuel s H; [reflexivity|].
  cbn [Nat.add choose_loop].
  destruct (difficulty_item (encoder_value (update_encoder hw s)))
    as (d & E & _).
  rewrite E; cbn [read_sw].
  change (sw_reads (update_encoder hw s)) with (sw_reads s).
  pose proof (H 0%nat ltac:(lia)) as H0; rewrite Nat.add_0_r in H0.
  rewrite H0; cbn [negb menu_passes].
  apply IH; intros j Hj.
  specialize (H (S j) ltac:(lia)).
  destruct (menu_pass_fields s) as (_ & _ & _ & _ & ->).
  now rewrite Nat.add_succ_r in H.
Qed.

End MenuFacts.

(** X14. [choose_difficulty] never raises and never returns anything but
    one of the three entries of [difficulties]: the index it computes from
    the counter is always 0, 1 or 2. *)
Theorem choose_difficulty_in_menu (hw : Hardware) (fuel : nat) (s s' : State)
    (r : result string) :
  choose_difficulty hw fuel s = Some (r, s') ->
  exists d, r = Ok d /\ In d difficulties.
Proof. apply choose_loop_in_menu. Qed.

Lemma choose_difficulty_in_menu_witness :
  choose_difficulty one_notch 4 (initial_state one_notch)
  = Some (Ok "MEDIUM"%string,
          menu_passes one_notch 4 (initial_state one_notch))
  /\ exists d, Ok "MEDIUM"%string = Ok d /\ In d difficulties.
Proof.
  assert (E : choose_difficulty one_notch 4 (initial_state one_notch)
              = Some (Ok "MEDIUM"%string,
                      menu_passes one_notch 4 (initial_state one_notch)))
    by (vm_compute; reflexivity).
  split; [exact E|].
  exact (choose_difficulty_in_menu one_notch 4 (initial_state one_notch)
           _ _ E).
Defined.

(** X15. [choose_difficulty] returns at the first pass on which the button
    reads low, and not before: if the button reads high on the first [k]
    passes and low on the next, any fuel above [k] returns the entry of
    [difficulties] at |n| mod 3, where [n] is the net count of the pin
    samples taken since entry; the counter left by earlier code and the
    direction of rotation play no part. *)
Theorem choose_difficulty_selects (hw : Hardware) (s : State) (k fuel : nat) :
  (forall j, (j < k)%nat -> sw_value hw (sw_reads s + j) = true) ->
  sw_value hw (sw_reads s + k) = false ->
  (k < fuel)%nat ->
  exists d,
    choose_difficulty hw fuel s
    = Some (Ok d, menu_passes hw (S k) (set_encoder_value 0 s))
    /\ nth_error difficulties
         (Z.to_nat (Z.abs (spec_total (last_state s) (samples hw s (S k)))
                    mod 3))
       = Some d
    /\ (forall j, (j <= k)%nat -> choose_difficulty hw j s = None).
Proof.
  intros Up Down Lt.
  set (s0 := set_encoder_value 0 s).
  assert (Up0 : forall j, (j < k)%nat -> sw_value hw (sw_reads s0 + j) = true)
    by exact Up.
  assert (Cnt : encoder_value (menu_passes hw (S k) s0)
                = spec_total (last_state s) (samples hw s (S k))).
  { rewrite menu_passes_counter.
    rewrite (samples_ext hw s0 s) by reflexivity.
    reflexivity. }
  rewrite menu_passes_succ in Cnt.
  destruct (menu_pass_fields hw (menu_passes hw k s0)) as (Enc & _).
  rewrite Enc in Cnt.
  destruct (difficulty_item (encoder_value
                               (update_encoder hw (menu_passes hw k s0))))
    as (d & E & N & _).
  exists d; repeat apply conj.
  - unfold choose_difficulty; fold s0.
    replace fuel with (k + S (fuel - S k))%nat by lia.
    rewrite choose_loop_skip by assumption.
    assert (Dn : sw_value hw (sw_reads (update_encoder hw
                                          (menu_passes hw k s0))) = false).
    { change (sw_reads (update_encoder hw (menu_passes hw k s0)))
        with (sw_reads (menu_passes hw k s0)).
      rewrite menu_passes_sw; exact Down. }
    cbn [choose_loop]; rewrite E; cbn [read_sw]; rewrite Dn; cbn [negb].
    rewrite menu_passes_succ; reflexivity.
  - now rewrite <- Cnt.
  - intros j Hj; unfold choose_difficulty; fold s0.
    replace j with (j + 0)%nat by lia.
    rewrite choose_loop_skip by (intros i Hi; apply Up0; lia).
    reflexivity.
Qed.

Lemma choose_difficulty_selects_witness :
  (forall j, (j < 3)%nat ->
     sw_value one_notch (sw_reads (initial_state one_notch) + j) = true)
  /\ sw_value one_notch (sw_reads (initial_state one_notch) + 3) = false
  /\ (3 < 5)%nat
  /\ exists d,
      choose_difficulty one_notch 5 (initial_state one_notch)
      = Some (Ok d, menu_passes one_notch 4
                      (set_encoder_value 0 (initial_state one_notch)))
      /\ nth_error difficulties 1 = Some d.
Proof.
  assert (Up : forall j, (j < 3)%nat ->
             sw_value one_notch (sw_reads (initial_state one_notch) + j)
             = true).
  { intros [|[|[|j]]] H; try reflexivity; lia. }
  split; [exact Up|]; split; [reflexivity|]; split; [lia|].
  destruct (choose_difficulty_selects one_notch (initial_state one_notch) 3 5
              Up eq_refl ltac:(lia)) as (d & E & N & _).
  exists d; split; [exact E | exact N].
Defined.

Lemma get_in_string (s : string) : forall n,
  (n < String.length s)%nat ->
  exists c, String.get n s = Some c /\ In c (list_ascii_of_string s).
Proof.
  induction s as [|a s IH]; intros n H; cbn [String.length] in H; [lia|].
  destruct n as [|n]; cbn [String.get list_ascii_of_string].
  - exists a; split; [reflexivity | now left].
  - destruct (IH n ltac:(lia)) as (c & G & I).
    exists c; split; [assumption | now right].
Qed.

Lemma letter_item (e : Z) :
  exists c,
    str_item LETTERS (Z.abs e mod Z.of_nat (String.length LETTERS))
    = Ok (String c EmptyString)
    /\ is_letter c.
Proof.
  change (Z.of_nat (String.length LETTERS)) with 26.
  pose proof (Z.mod_pos_bound (Z.abs e) 26 ltac:(lia)) as B.
  set (i := Z.abs e mod 26) in *.
  destruct (get_in_string LETTERS (Z.to_nat i)) as (c & G & I).
  { change (String.length LETTERS) with 26%nat; lia. }
  exists c; split; [|exact I].
  unfold str_item, index.
  change (Z.of_nat (String.length LETTERS)) with 26.
  destruct (i <? 0) eqn:N; [apply Z.ltb_lt in N; lia|].
  destruct (0 <=? i) eqn:P; [|apply Z.leb_gt in P; lia].
  destruct (i <? 26) eqn:U; [|apply Z.ltb_ge in U; lia].
  cbn [andb]; now rewrite G.
Qed.

Lemma list_set_three (name : list string) (pos : Z) (c : Ascii.ascii) :
  three_letters name -> 0 <= pos < 3 -> is_letter c ->
  exists name', list_set name pos (String c EmptyString) = Ok name'
                /\ three_letters name'.
Proof.
  intros (x & y & z & -> & Lx & Ly & Lz) B Lc.
  assert (C : pos = 0 \/ pos = 1 \/ pos = 2) by lia.
  destruct C as [-> | [-> | ->]]; eexists; (split; [reflexivity|]);
    do 3 eexists; (split; [reflexivity|]); auto.
Qed.

Section InitialsFacts.
Variable hw : Hardware.

Lemma initials_loop_shape (fuel : nat) : forall name pos s r s',
  three_letters name -> 0 <= pos < 3 ->
  initials_loop hw fuel name pos s = Some (r, s') ->
  exists a b c,
    r = Ok (String a (String b (String c EmptyString)))
    /\ is_letter a /\ is_letter b /\ is_letter c.
Proof.
  induction fuel as [|fuel IH]; intros name pos s r s' T B H; [discriminate|].
  cbn [initials_loop] in H.
  destruct (letter_item (encoder_value (update_encoder hw s))) as (c & E & Lc).
  rewrite E in H.
  destruct (list_set_three name pos c T B Lc) as (name1 & S1 & T1).
  rewrite S1 in H.
  destruct (read_sw hw (update_encoder hw s)) as [v s2].
  destruct (negb v).
  - destruct (pos + 1 >=? 3) eqn:G.
    + injection H as <- _.
      destruct T1 as (x & y & z & -> & Lx & Ly & Lz).
      exists x, y, z; repeat split; assumption.
    + eapply IH; [exact T1 | | exact H].
      rewrite Z.geb_leb in G; apply Z.leb_gt in G; lia.
  - eapply IH; [exact T1 | exact B | exact H].
Qed.

Lemma initials_loop_presses (k : nat) : forall name pos s,
  three_letters name -> 0 <= pos < 3 ->
  if (3 - pos <=? Z.of_nat (presses hw (sw_reads s) k))
  then exists name' s', initials_loop hw k name pos s = Some (Ok name', s')
  else initials_loop hw k name pos s = None.
Proof.
  induction k as [|k IH]; intros name pos s T B.
  - cbn [presses]; destruct (3 - pos <=? Z.of_nat 0) eqn:C;
      [apply Z.leb_le in C; lia | reflexivity].
  - cbn [initials_loop presses].
    destruct (letter_item (encoder_value (update_encoder hw s)))
      as (c & E & Lc).
    rewrite E.
    destruct (list_set_three name pos c T B Lc) as (name1 & S1 & T1).
    rewrite S1; cbn [read_sw].
    change (sw_reads (update_encoder hw s)) with (sw_reads s).
    destruct (sw_value hw (sw_reads s)); cbn [negb].
    + specialize (IH name1 pos
                    (snd (read_sw hw (update_encoder hw s))) T1 B).
      exact IH.
    + destruct (pos + 1 >=? 3) eqn:G.
      * rewrite Z.geb_leb in G; apply Z.leb_le in G.
        destruct (3 - pos <=? _) eqn:C; [|apply Z.leb_gt in C; lia].
        eexists; eexists; reflexivity.
      * rewrite Z.geb_leb in G; apply Z.leb_gt in G.
        specialize (IH name1 (pos + 1)
                      (set_encoder_value 0
                         (snd (read_sw hw (update_encoder hw s))))
                      T1 ltac:(lia)).
        cbn [read_sw snd set_encoder_value sw_reads] in IH.
        change (sw_reads (update_encoder hw s)) with (sw_reads s) in IH.
        replace (3 - pos <=? Z.of_nat (1 + presses hw (S (sw_reads s)) k))
          with (3 - (pos + 1) <=? Z.of_nat (presses hw (S (sw_reads s)) k)).
        -- exact IH.
        -- apply Bool.eq_true_iff_eq; rewrite !Z.leb_le; lia.
Qed.

End InitialsFacts.

Lemma initial_name_three : three_letters ["A"; "A"; "A"]%string.
Proof.
  do 3 eexists; split; [reflexivity|].
  repeat split; now left.
Qed.

(** X16. Whatever the knob and the button do, [enter_initials] never raises
    and returns a name of exactly three characters, each one of the 26
    capital letters of [LETTERS]. *)
Theorem enter_initials_three_letters (hw : Hardware) (fuel : nat)
    (s s' : State) (r : result string) :
  enter_initials hw fuel s = Some (r, s') ->
  exists a b c,
    r = Ok (String a (String b (String c EmptyString)))
    /\ is_letter a /\ is_letter b /\ is_letter c.
Proof.
  apply initials_loop_shape; [apply initial_name_three | lia].
Qed.

Lemma enter_initials_three_letters_witness :
  exists r s',
    enter_initials held_button 3 (initial_state held_button) = Some (r, s')
    /\ exists a b c,
        r = Ok (String a (String b (String c EmptyString)))
        /\ is_letter a /\ is_letter b /\ is_letter c.
Proof.
  destruct (enter_initials held_button 3 (initial_state held_button))
    as [[r s']|] eqn:E; [|vm_compute in E; discriminate E].
  exists r, s'; split; [reflexivity|].
  exact (enter_initials_three_letters held_button 3
           (initial_state held_button) s' r E).
Defined.

(** X17. [enter_initials] returns exactly when the button has read low for
    the third time: with fuel for [k] passes it returns a name if at least
    three of the next [k] readings of the button are low, and is still
    waiting otherwise. *)
Theorem enter_initials_third_press (hw : Hardware) (k : nat) (s : State) :
  (3 <= presses hw (sw_reads s) k)%nat ->
  (exists name s', enter_initials hw k s = Some (Ok name, s'))
  /\ (forall j, (presses hw (sw_reads s) j < 3)%nat ->
                enter_initials hw j s = None).
Proof.
  intros P; split.
  - pose proof (initials_loop_presses hw k ["A"; "A"; "A"]%string 0
                  (set_encoder_value 0 s) initial_name_three ltac:(lia)) as H.
    change (sw_reads (set_encoder_value 0 s)) with (sw_reads s) in H.
    destruct (3 - 0 <=? _) eqn:C; [exact H | apply Z.leb_gt in C; lia].
  - intros j Hj.
    pose proof (initials_loop_presses hw j ["A"; "A"; "A"]%string 0
                  (set_encoder_value 0 s) initial_name_three ltac:(lia)) as H.
    change (sw_reads (set_encoder_value 0 s)) with (sw_reads s) in H.
    destruct (3 - 0 <=? _) eqn:C; [apply Z.leb_le in C; lia | exact H].
Qed.

Lemma enter_initials_third_press_witness :
  (3 <= presses held_button (sw_reads (initial_state held_button)) 3)%nat
  /\ exists name s',
      enter_initials held_button 3 (initial_state held_button)
      = Some (Ok name, s').
Proof.
  assert (P : (3 <= presses held_button
                         (sw_reads (initial_state held_button)) 3)%nat)
    by (vm_compute; lia).
  split; [exact P|].
  exact (proj1 (enter_initials_third_press held_button 3
                  (initial_state held_button) P)).
Defined.


(** ** The end screen and a round of the main loop *)

Import Round.

(** X21. The waits for the button return at the first reading that is low
    and touch nothing else: when [wait_press] returns, the button read high
    on every earlier reading, low on the last one, and only the count of
    button readings has changed. *)
Theorem wait_press_first_low (hw : Hardware) (fuel : nat) (s s' : State) :
  wait_press hw fuel s = Some s' ->
  exists k, (k < fuel)%nat
            /\ sw_value hw (sw_reads s + k) = false
            /\ (forall j, (j < k)%nat -> sw_value hw (sw_reads s + j) = true)
            /\ s' = mkState (encoder_value s) (last_state s) (fx s) (fy s)
                       (fz s) (clock_reads s) (clk_reads s) (dt_reads s)
                       (sw_reads s + S k) (accel_reads s) (rand_draws s).
Proof.
  revert s; induction fuel as [|fuel IH]; intros s H; [discriminate|].
  cbn [wait_press read_sw] in H.
  destruct (sw_value hw (sw_reads s)) eqn:V; cbn [negb] in H.
  - apply IH in H as (k & Hk & Low & High & ->); cbn in *.
    exists (S k); repeat split; try lia.
    + now rewrite Nat.add_succ_r.
    + intros [|j] Hj; [now rewrite Nat.add_0_r|].
      rewrite Nat.add_succ_r; apply High; lia.
    + f_equal; lia.
  - injection H as <-; exists 0%nat.
    repeat split; try lia; [now rewrite Nat.add_0_r|].
    f_equal; lia.
Qed.

Lemma wait_press_first_low_witness :
  exists s',
    wait_press one_notch 5 (initial_state one_notch) = Some s'
    /\ exists k, (k < 5)%nat
                 /\ sw_value one_notch
                      (sw_reads (initial_state one_notch) + k) = false.
Proof.
  destruct (wait_press one_notch 5 (initial_state one_notch)) as [s'|] eqn:E;
    [|vm_compute in E; discriminate E].
  exists s'; split; [reflexivity|].
  destruct (wait_press_first_low one_notch 5 (initial_state one_notch) s' E)
    as (k & Hk & Low & _).
  exists k; split; assumption.
Defined.





Section RoundFacts.
Variable json_load : string -> result (list Entry).
Variable json_dump : list Entry -> string.
Variable hw : Hardware.


End RoundFacts.


(** X18. The full [end_screen], with its waits and the entry of the
    initials, shows and stores what the table update computes: whenever it
    returns, its result is that of the update for some name of three capital
    letters, the one entered when the score qualifies. *)
Theorem end_screen_io_result
    (json_load : string -> result (list Entry))
    (json_dump : list Entry -> string)
    (hw : Hardware) (fuel : nat) (score : Z) (win : bool)
    (store : option string) (s s' : State)
    (r : result (list Entry * option string)) :
  end_screen_io json_load json_dump hw fuel score win store s = Some (r, s') ->
  exists a b c,
    is_letter a /\ is_letter b /\ is_letter c
    /\ r = end_screen json_load json_dump score
             (String a (String b (String c EmptyString))) store.
Proof.
  intros H; unfold end_screen_io in H; unfold end_screen, update_scores.
  destruct (wait_press hw fuel s) as [s1|]; [|discriminate].
  assert (A : is_letter "A"%char) by now left.
  destruct (load_highscores json_load store) as [scores|e];
    [|injection H as <- _; exists "A"%char, "A"%char, "A"%char; auto].
  destruct (last_item scores) as [third|e];
    [|injection H as <- _; exists "A"%char, "A"%char, "A"%char; auto].
  destruct (score >? entry_score third).
  - destruct (enter_initials hw fuel s1) as [[rn s2]|] eqn:N; [|discriminate].
    destruct (initials_loop_shape hw fuel _ 0 _ _ _ initial_name_three
                ltac:(lia) N) as (a & b & c & -> & La & Lb & Lc).
    destruct (wait_press hw fuel s2) as [s3|]; [|discriminate].
    injection H as <- _; exists a, b, c; auto.
  - destruct (wait_press hw fuel s1) as [s3|]; [|discriminate].
    injection H as <- _; exists "A"%char, "A"%char, "A"%char; auto.
Qed.

Lemma end_screen_io_result_witness :
  exists r s',
    end_screen_io (fun _ => Raise ValueError) (fun _ => "saved"%string)
      held_button 3 115 true None (initial_state held_button)
    = Some (r, s')
    /\ exists a b c,
        is_letter a /\ is_letter b /\ is_letter c
        /\ r = end_screen (fun _ => Raise ValueError)
                 (fun _ => "saved"%string) 115
                 (String a (String b (String c EmptyString))) None.
Proof.
  destruct (end_screen_io (fun _ => Raise ValueError)
              (fun _ => "saved"%string) held_button 3 115 true None
              (initial_state held_button)) as [[r s']|] eqn:E;
    [|vm_compute in E; discriminate E].
  exists r, s'; split; [reflexivity|].
  exact (end_screen_io_result _ _ _ _ _ _ _ _ _ _ E).
Defined.



(** ** Display *)

Import Display.

Lemma show_text_from_nth (lines : list string) : forall y i txt,
  nth_error lines i = Some txt ->
  nth_error (show_text_from y lines) i
  = Some (mkLabel txt 1 0xFFFFFF 5 (y + 10 * Z.of_nat i)).
Proof.
  induction lines as [|l rest IH]; intros y i txt H;
    [destruct i; discriminate|].
  destruct i as [|i]; cbn [nth_error show_text_from] in *.
  - injection H as ->; do 2 f_equal; lia.
  - rewrite (IH (y + 10) i txt H); do 2 f_equal; lia.
Qed.

Lemma show_text_from_length (lines : list string) : forall y,
  List.length (show_text_from y lines) = List.length lines.
Proof.
  induction lines as [|l rest IH]; intros y; cbn; [reflexivity|].
  now rewrite IH.
Qed.

Lemma show_text_from_rows (lines : list string) : forall y,
  Forall (fun l => y <= label_y l
                   <= y + 10 * (Z.of_nat (List.length lines) - 1))
         (show_text_from y lines).
Proof.
  induction lines as [|l rest IH]; intros y; cbn [show_text_from];
    constructor.
  - cbn [label_y List.length]; lia.
  - specialize (IH (y + 10)).
    eapply Forall_impl; [|exact IH].
    intros lbl B; cbn [List.length]; cbn beta in B; lia.
Qed.

Lemma score_lines_length (scores : list Entry) : forall i,
  List.length (score_lines i scores) = List.length scores.
Proof.
  induction scores as [|s rest IH]; intros i; cbn; [reflexivity|].
  now rewrite IH.
Qed.

(** X20. [show_text] lays the lines out in order, one label per line, all
    at x = 5 and 10 pixels apart from y = 5 down.  The screen of
    [show_highscores] has three lines more than the table has entries, and
    for a table of at most 3 entries every label row lies within the height
    of the display. *)
Theorem show_highscores_layout (hw : Hardware) (fuel : nat)
    (scores : list Entry) (s s' : State) (group : list Label) :
  show_highscores hw fuel scores s = Some (group, s') ->
  List.length group = (List.length scores + 3)%nat
  /\ (forall i txt,
        nth_error (highscore_lines scores) i = Some txt ->
        nth_error group i
        = Some (mkLabel txt 1 0xFFFFFF 5 (5 + 10 * Z.of_nat i)))
  /\ ((List.length scores <= 3)%nat ->
      Forall (fun l => 0 <= label_y l < display_height) group).
Proof.
  unfold show_highscores; intros H.
  destruct (wait_press hw fuel s); [|discriminate].
  injection H as <- _.
  assert (Len : List.length (highscore_lines scores)
                = (List.length scores + 3)%nat).
  { unfold highscore_lines; cbn [List.length].
    rewrite length_app, score_lines_length; cbn [List.length]; lia. }
  repeat apply conj.
  - unfold show_text; now rewrite show_text_from_length.
  - intros i txt N; now apply show_text_from_nth.
  - intros B.
    pose proof (show_text_from_rows (highscore_lines scores) 5) as R.
    eapply Forall_impl; [|exact R].
    intros lbl Hl; cbn beta in Hl; rewrite Len in Hl.
    unfold display_height; lia.
Qed.

Lemma show_highscores_layout_witness :
  exists group s',
    show_highscores held_button 1 DEFAULT_SCORES (initial_state held_button)
    = Some (group, s')
    /\ List.length group = (List.length DEFAULT_SCORES + 3)%nat.
Proof.
  destruct (show_highscores held_button 1 DEFAULT_SCORES
              (initial_state held_button)) as [[group s']|] eqn:E;
    [|vm_compute in E; discriminate E].
  exists group, s'; split; [reflexivity|].
  exact (proj1 (show_highscores_layout _ _ _ _ _ _ E)).
Defined.

Example highscore_lines_example :
  highscore_lines [mkEntry "CAT" 115; mkEntry "AAA" 0]
  = ["HIGH SCORES:"; "1. CAT  115"; "2. AAA  0"; ""; "Press to continue"]%string.
Proof. reflexivity. Qed.
